(** * A shallow embedding of [linq.go]

    The library threads a [queryable] (a slice of [interface{}] values, a
    sticky [error] and an optional comparator) through chained operations.
    The embedding follows the Go source function by function:

    - Go's [int] is taken to be 64 bits wide; it is a [Z] whose arithmetic
      wraps around explicitly ([wrap_int]).
    - A dynamic value ([interface{}]) is a tagged union [iface] over the
      dynamic types the library itself inspects (the twelve numeric kinds of
      [sum_]) together with [nil], [bool] and [string].  Dynamic types that
      Go cannot hash (slices, maps, functions) are outside this universe.
    - [float64] and [float32] values are IEEE 754 binary floats
      ([spec_float] of the standard library, precision 53, emax 1024).
    - Go's [==] on interface values is the boolean [go_eq]; it is not
      reflexive (NaN) and identifies [+0] with [-0], as in Go.
    - A slice is [option (list iface)], [None] being the [nil] slice.
    - A built-in [map[interface{}]V] is an association list looked up with
      [go_eq]; the order in which [range] visits a map is unspecified in
      Go and is supplied by an arbitrary permutation ([map_order]).
    - Indexing and slicing are checked: out of bounds is a run-time panic
      ([Panics]).
    - Caller-supplied callables are total functions; every invocation an
      operation makes is recorded, in program order, in a [trace].
    - Memory is unbounded: a slice may have any length.

    The orderings ([OrderInts], [OrderStrings], [OrderFloat64s],
    [OrderBy]) and the [Min]/[Max] accessors rest on conversion helpers
    and on the [sort] package, neither of which is in [linq.go]; they are
    not embedded. *)

From Stdlib Require Import ZArith List Bool Lia String Permutation.
From Stdlib Require Import Floats.SpecFloat.
From stdpp Require Import base list.

Local Open Scope Z_scope.

(** ** Machine integers *)

Definition int_min : Z := - 2 ^ 63.
Definition int_max : Z := 2 ^ 63 - 1.

Definition is_int (z : Z) : Prop := int_min <= z <= int_max.

(** Two's complement wrap-around of a mathematical integer into [int]. *)
Definition wrap_int (z : Z) : Z := (z + 2 ^ 63) mod 2 ^ 64 - 2 ^ 63.

(** Go's [a + b] on [int]. *)
Definition int_add (a b : Z) : Z := wrap_int (a + b).

(** ** Floating point *)

Definition float64 : Type := spec_float.
Definition float32 : Type := spec_float.

Definition f64_prec : Z := 53.
Definition f64_emax : Z := 1024.

Definition f64_zero : float64 := S754_zero false.
Definition f64_add : float64 -> float64 -> float64 := SFadd f64_prec f64_emax.
Definition f64_div : float64 -> float64 -> float64 := SFdiv f64_prec f64_emax.

(** [float64(z)] for an integer [z]: the nearest [float64], ties to even. *)
Definition f64_of_Z (z : Z) : float64 :=
  binary_normalize f64_prec f64_emax z 0 false.

(** [float64(f)] for a [float32]: the same real number, renormalised to a
    53-bit mantissa (the conversion is exact). *)
Definition f64_of_f32 (f : float32) : float64 :=
  match f with
  | S754_finite s m e =>
      binary_normalize f64_prec f64_emax (cond_Zopp s (Zpos m)) e s
  | _ => f
  end.

(** ** Errors *)

Inductive error : Type :=
| ErrNilFunc
| ErrNilInput
| ErrNoElement
| ErrEmptySequence
| ErrNegativeParam
| ErrNan
| ErrTypeMismatch
| ErrOther (msg : string).   (* an error made by a caller-supplied callable *)

(** ** Dynamic values *)

Inductive iface : Type :=
| VNil
| VBool (b : bool)
| VString (s : string)
| VInt (z : Z)
| VUint (z : Z)
| VFloat64 (f : float64)
| VInt32 (z : Z)
| VInt64 (z : Z)
| VFloat32 (f : float32)
| VInt8 (z : Z)
| VInt16 (z : Z)
| VUint64 (z : Z)
| VUint32 (z : Z)
| VUint16 (z : Z)
| VUint8 (z : Z).

(** Go's [x == y] on two interface values: equal dynamic types and equal
    values of that type. *)
Definition go_eq (x y : iface) : bool :=
  match x, y with
  | VNil, VNil => true
  | VBool a, VBool b => Bool.eqb a b
  | VString a, VString b => String.eqb a b
  | VInt a, VInt b => Z.eqb a b
  | VUint a, VUint b => Z.eqb a b
  | VFloat64 a, VFloat64 b => SFeqb a b
  | VInt32 a, VInt32 b => Z.eqb a b
  | VInt64 a, VInt64 b => Z.eqb a b
  | VFloat32 a, VFloat32 b => SFeqb a b
  | VInt8 a, VInt8 b => Z.eqb a b
  | VInt16 a, VInt16 b => Z.eqb a b
  | VUint64 a, VUint64 b => Z.eqb a b
  | VUint32 a, VUint32 b => Z.eqb a b
  | VUint16 a, VUint16 b => Z.eqb a b
  | VUint8 a, VUint8 b => Z.eqb a b
  | _, _ => false
  end.


(** ** Slices *)

Definition slice : Type := option (list iface).

Definition elems (s : slice) : list iface := default [] s.

(** [len(s)] *)
Definition len (s : slice) : Z := Z.of_nat (length (elems s)).

(** [append(s, x)] *)
Definition append (s : slice) (x : iface) : slice := Some (elems s ++ [x]).

(** [make([]interface{}, n)]: [n] nil interface values. *)
Definition make (n : Z) : slice := Some (replicate (Z.to_nat n) VNil).

(** ** Outcomes: a Go call either returns or panics *)

Inductive outcome (A : Type) : Type :=
| Returns (a : A)
| Panics.
Arguments Returns {A} a.
Arguments Panics {A}.

Definition obind {A B} (m : outcome A) (k : A -> outcome B) : outcome B :=
  match m with
  | Returns a => k a
  | Panics => Panics
  end.

(** [s[i]], panicking when [i] is out of range. *)
Definition index {A} (l : list A) (i : Z) : outcome A :=
  if (0 <=? i) && (i <? Z.of_nat (length l))
  then match l !! Z.to_nat i with
       | Some v => Returns v
       | None => Panics
       end
  else Panics.

(** [s[i] = v], panicking when [i] is out of range. *)
Definition store {A} (l : list A) (i : Z) (v : A) : outcome (list A) :=
  if (0 <=? i) && (i <? Z.of_nat (length l))
  then Returns (<[Z.to_nat i := v]> l)
  else Panics.

(** [s[:n]] and [s[n:]].  The bound checked is the length: the capacity of
    a slice is at least its length, so the model panics whenever Go may.
    Slicing the nil slice at 0 gives the nil slice. *)
Definition slice_to (s : slice) (n : Z) : outcome slice :=
  if (0 <=? n) && (n <=? len s)
  then Returns (option_map (take (Z.to_nat n)) s)
  else Panics.

Definition slice_from (s : slice) (n : Z) : outcome slice :=
  if (0 <=? n) && (n <=? len s)
  then Returns (option_map (drop (Z.to_nat n)) s)
  else Panics.

(** ** The pipeline *)

Record queryable : Type := mkQ {
  values : slice;
  err : option error;
  less : option (iface -> iface -> bool)
}.

(** The zero value of [queryable], which every named result [r] starts as. *)
Definition zeroQ : queryable := mkQ None None None.

Definition set_values (r : queryable) (s : slice) : queryable :=
  mkQ s (err r) (less r).
Definition set_err (r : queryable) (e : error) : queryable :=
  mkQ (values r) (Some e) (less r).

(** ** Callables and the trace of their invocations *)

Definition predicate : Type := iface -> bool * option error.
Definition mapper : Type := iface -> iface * option error.
Definition equivalence : Type := iface -> iface -> bool * option error.
Definition key_selector : Type := iface -> iface.
Definition join_selector : Type := iface -> iface -> iface.
Definition group_selector : Type := iface -> slice -> iface.

Inductive call : Type :=
| CallPredicate (x : iface)
| CallMapper (x : iface)
| CallEquivalence (x y : iface)
| CallOuterKey (x : iface)
| CallInnerKey (x : iface)
| CallJoinResult (outer inner : iface)
| CallGroupResult (outer : iface) (inners : slice).

Definition trace : Type := list call.

(** A computation that may invoke callables: its outcome and the calls made. *)
Definition M (A : Type) : Type := outcome A * trace.

Definition ret {A} (a : A) : M A := (Returns a, []).
Definition panic {A} : M A := (Panics, []).

Definition bind {A B} (m : M A) (k : A -> M B) : M B :=
  match m with
  | (Returns a, t1) => let '(r, t2) := k a in (r, t1 ++ t2)
  | (Panics, t1) => (Panics, t1)
  end.

Definition lift {A} (o : outcome A) : M A := (o, []).

Declare Scope go_scope.
Delimit Scope go_scope with go.
Notation "x <- m ;; k" := (bind m (fun x => k))
  (at level 100, m at next level, right associativity) : go_scope.
Notation "x <~ m ;; k" := (obind m (fun x => k))
  (at level 100, m at next level, right associativity) : go_scope.
Local Open Scope go_scope.

Definition call_predicate (f : predicate) (x : iface)
  : M (bool * option error) :=
  (Returns (f x), [CallPredicate x]).
Definition call_mapper (f : mapper) (x : iface) : M (iface * option error) :=
  (Returns (f x), [CallMapper x]).
Definition call_equivalence (f : equivalence) (x y : iface)
  : M (bool * option error) :=
  (Returns (f x y), [CallEquivalence x y]).
Definition call_outer_key (f : key_selector) (x : iface) : M iface :=
  (Returns (f x), [CallOuterKey x]).
Definition call_inner_key (f : key_selector) (x : iface) : M iface :=
  (Returns (f x), [CallInnerKey x]).
Definition call_join_result (f : join_selector) (o i : iface) : M iface :=
  (Returns (f o i), [CallJoinResult o i]).
Definition call_group_result (f : group_selector) (o : iface) (g : slice)
  : M iface :=
  (Returns (f o g), [CallGroupResult o g]).

(** ** Built-in maps keyed by interface values *)

Section GoMap.
Context {V : Type}.

Definition gomap : Type := list (iface * V).

(** [v, ok := m[k]] *)
Fixpoint map_get (m : gomap) (k : iface) : option V :=
  match m with
  | [] => None
  | (k', v) :: m' => if go_eq k' k then Some v else map_get m' k
  end.

(** [m[k] = v].  An entry whose key is [==] to [k] is overwritten, key
    included (the run time copies the key for interface keys); otherwise
    a new entry is added.  A NaN key is never found, so it always adds. *)
Fixpoint map_set (m : gomap) (k : iface) (v : V) : gomap :=
  match m with
  | [] => [(k, v)]
  | (k', v') :: m' =>
      if go_eq k' k then (k, v) :: m' else (k', v') :: map_set m' k v
  end.

(** [delete(m, k)] *)
Definition map_delete (m : gomap) (k : iface) : gomap :=
  filter (fun kv : iface * V => go_eq (fst kv) k = false)
    (m : list (iface * V)).

(** [len(m)] *)
Definition map_len (m : gomap) : Z := Z.of_nat (length m).
End GoMap.
Arguments gomap V : clear implicits.

(** The order in which [for k, v := range m] visits a map: unspecified,
    but every entry is visited exactly once. *)
Record map_order : Type := mkOrder {
  visit : forall V : Type, gomap V -> gomap V;
  visit_perm : forall V (m : gomap V), Permutation (visit V m) m
}.

(** ** Construction and materialisation *)

Definition From (input : slice) : queryable :=
  mkQ input
      (match input with
       | None => Some ErrNilInput
       | Some _ => None
       end)
      None.


(** ** Filtering and projection *)

(** [for _, i := range q.values] of [Where]; [r] is the named result. *)
Fixpoint Where_loop (f : predicate) (vs : list iface) (r : queryable)
  : M queryable :=
  match vs with
  | [] => ret r
  | i :: vs' =>
      res <- call_predicate f i ;;
      match snd res with
      | Some e => ret (set_err r e)
      | None =>
          Where_loop f vs'
            (if fst res then set_values r (append (values r) i) else r)
      end
  end.

Definition Where (q : queryable) (f : option predicate) : M queryable :=
  match err q with
  | Some e => ret (set_err zeroQ e)
  | None =>
      match f with
      | None => ret (set_err zeroQ ErrNilFunc)
      | Some f => Where_loop f (elems (values q)) zeroQ
      end
  end.

Fixpoint Select_loop (f : mapper) (vs : list iface) (r : queryable)
  : M queryable :=
  match vs with
  | [] => ret r
  | i :: vs' =>
      res <- call_mapper f i ;;
      match snd res with
      | Some e => ret (set_err r e)
      | None => Select_loop f vs' (set_values r (append (values r) (fst res)))
      end
  end.

Definition Select (q : queryable) (f : option mapper) : M queryable :=
  match err q with
  | Some e => ret (set_err zeroQ e)
  | None =>
      match f with
      | None => ret (set_err zeroQ ErrNilFunc)
      | Some f => Select_loop f (elems (values q)) zeroQ
      end
  end.

(** ** Set algebra *)

(** [for _, v := range vs { if _, ok := set[v]; !ok { set[v] = true } }] *)
Fixpoint collect_set (vs : list iface) (set : gomap bool) : gomap bool :=
  match vs with
  | [] => set
  | v :: vs' =>
      collect_set vs'
        (match map_get set v with
         | None => map_set set v true
         | Some _ => set
         end)
  end.

(** [i := 0; for k, _ := range m { res[i] = k; i++ }], the entries taken in
    the order the run time visits them. *)
Fixpoint copy_keys {V} (entries : gomap V) (i : Z) (res : list iface)
  : outcome (list iface) :=
  match entries with
  | [] => Returns res
  | (k, _) :: rest =>
      res' <~ store res i k ;;
      copy_keys rest (i + 1) res'
  end.

(** The second loop of [distinct] with a comparer:
    [for j := i + 1; j < l; j++], [n] iterations being left. *)
Fixpoint distinct_inner (f : equivalence) (vals : list iface) (i : Z)
    (n : nat) (j : Z) (included : list bool) : M (list bool + error) :=
  match n with
  | O => ret (inl included)
  | S n' =>
      vi <- lift (index vals i) ;;
      vj <- lift (index vals j) ;;
      res <- call_equivalence f vi vj ;;
      match snd res with
      | Some e => ret (inr e)
      | None =>
          included' <- (if fst res then lift (store included j true)
                        else ret included) ;;
          distinct_inner f vals i n' (j + 1) included'
      end
  end.

(** The first loop of [distinct] with a comparer:
    [for i := 0; i < l; i++], [n] iterations being left. *)
Fixpoint distinct_outer (f : equivalence) (vals : list iface) (l : Z)
    (n : nat) (i : Z) (included : list bool) (results : slice)
  : M (slice + error) :=
  match n with
  | O => ret (inl results)
  | S n' =>
      skip <- lift (index included i) ;;
      if skip : bool then distinct_outer f vals l n' (i + 1) included results
      else
        inner <- distinct_inner f vals i (Z.to_nat (l - (i + 1))) (i + 1)
                   included ;;
        match inner with
        | inr e => ret (inr e)
        | inl included' =>
            vi <- lift (index vals i) ;;
            distinct_outer f vals l n' (i + 1) included' (append results vi)
        end
  end.

Definition distinct (o : map_order) (q : queryable) (f : option equivalence)
  : M queryable :=
  match err q with
  | Some e => ret (set_err zeroQ e)
  | None =>
      match f with
      | None =>
          let dict := collect_set (elems (values q)) [] in
          let res := make (map_len dict) in
          res' <- lift (copy_keys (visit o bool dict) 0 (elems res)) ;;
          ret (set_values zeroQ (Some res'))
      | Some f =>
          let l := len (values q) in
          let results := make 0 in
          let included := replicate (Z.to_nat l) false in
          out <- distinct_outer f (elems (values q)) l (Z.to_nat l) 0
                   included results ;;
          match out with
          | inr e => ret (set_err zeroQ e)
          | inl results' => ret (set_values zeroQ results')
          end
      end
  end.

Definition Distinct (o : map_order) (q : queryable) : M queryable :=
  distinct o q None.

Definition DistinctBy (o : map_order) (q : queryable) (f : option equivalence)
  : M queryable :=
  match f with
  | None => ret (set_err zeroQ ErrNilFunc)
  | Some _ => distinct o q f
  end.

Definition Union (o : map_order) (q : queryable) (in_ : slice)
  : outcome queryable :=
  match err q with
  | Some e => Returns (set_err zeroQ e)
  | None =>
      match in_ with
      | None => Returns (set_err zeroQ ErrNilInput)
      | Some other =>
          let set := collect_set (elems (values q)) [] in
          let set := collect_set other set in
          let res := make (map_len set) in
          res' <~ copy_keys (visit o bool set) 0 (elems res) ;;
          Returns (set_values zeroQ (Some res'))
      end
  end.

(** The second loop of [Intersect]. *)
Fixpoint Intersect_loop (vs : list iface) (set intersection : gomap bool)
  : gomap bool :=
  match vs with
  | [] => intersection
  | v :: vs' =>
      match map_get set v with
      | Some _ =>
          Intersect_loop vs' (map_delete set v)
            (match map_get intersection v with
             | None => map_set intersection v true
             | Some _ => intersection
             end)
      | None => Intersect_loop vs' set intersection
      end
  end.

Definition Intersect (o : map_order) (q : queryable) (in_ : slice)
  : outcome queryable :=
  match err q with
  | Some e => Returns (set_err zeroQ e)
  | None =>
      match in_ with
      | None => Returns (set_err zeroQ ErrNilInput)
      | Some other =>
          let set := collect_set (elems (values q)) [] in
          let intersection := Intersect_loop other set [] in
          let res := make (map_len intersection) in
          res' <~ copy_keys (visit o bool intersection) 0 (elems res) ;;
          Returns (set_values zeroQ (Some res'))
      end
  end.

(** [for _, v := range vs { delete(set, v) }] *)
Fixpoint delete_all (vs : list iface) (set : gomap bool) : gomap bool :=
  match vs with
  | [] => set
  | v :: vs' => delete_all vs' (map_delete set v)
  end.

Definition Except (o : map_order) (q : queryable) (in_ : slice)
  : outcome queryable :=
  match err q with
  | Some e => Returns (set_err zeroQ e)
  | None =>
      match in_ with
      | None => Returns (set_err zeroQ ErrNilInput)
      | Some other =>
          let set := collect_set (elems (values q)) [] in
          let set := delete_all other set in
          let res := make (map_len set) in
          res' <~ copy_keys (visit o bool set) 0 (elems res) ;;
          Returns (set_values zeroQ (Some res'))
      end
  end.

(** ** Aggregation and element access *)

Definition Count (q : queryable) : Z * option error :=
  (len (values q), err q).

(** [for _, i := range q.values] of [All]; there is no [break]. *)
Fixpoint All_loop (f : predicate) (vs : list iface) (all : bool)
  : M (bool * option error) :=
  match vs with
  | [] => ret (all, None)
  | i :: vs' =>
      res <- call_predicate f i ;;
      match snd res with
      | Some e => ret (all, Some e)
      | None => All_loop f vs' (all && fst res)
      end
  end.

Definition All (q : queryable) (f : option predicate)
  : M (bool * option error) :=
  match err q with
  | Some e => ret (false, Some e)
  | None =>
      match f with
      | None => ret (false, Some ErrNilFunc)
      | Some f => All_loop f (elems (values q)) true
      end
  end.

Definition ElementAt (q : queryable) (i : Z) : outcome (iface * option error) :=
  match err q with
  | Some e => Returns (VNil, Some e)
  | None =>
      if i <? 0 then Returns (VNil, Some ErrNegativeParam)
      else if len (values q) <? int_add i 1
           then Returns (VNil, Some ErrNoElement)
           else elem <~ index (elems (values q)) i ;; Returns (elem, None)
  end.

Definition ElementAtOrNil (q : queryable) (i : Z)
  : outcome (iface * option error) :=
  match err q with
  | Some e => Returns (VNil, Some e)
  | None =>
      if i <? 0 then Returns (VNil, Some ErrNegativeParam)
      else if len (values q) >? i
           then elem <~ index (elems (values q)) i ;; Returns (elem, None)
           else Returns (VNil, None)
  end.

Definition First (q : queryable) : outcome (iface * option error) :=
  match err q with
  | Some e => Returns (VNil, Some e)
  | None =>
      if len (values q) =? 0 then Returns (VNil, Some ErrNoElement)
      else elem <~ index (elems (values q)) 0 ;; Returns (elem, None)
  end.

Definition FirstOrNil (q : queryable) : outcome (iface * option error) :=
  match err q with
  | Some e => Returns (VNil, Some e)
  | None =>
      if len (values q) >? 0
      then elem <~ index (elems (values q)) 0 ;; Returns (elem, None)
      else Returns (VNil, None)
  end.

Definition Last (q : queryable) : outcome (iface * option error) :=
  match err q with
  | Some e => Returns (VNil, Some e)
  | None =>
      if len (values q) =? 0 then Returns (VNil, Some ErrNoElement)
      else elem <~ index (elems (values q)) (len (values q) - 1) ;;
           Returns (elem, None)
  end.

Definition LastOrNil (q : queryable) : outcome (iface * option error) :=
  match err q with
  | Some e => Returns (VNil, Some e)
  | None =>
      if len (values q) >? 0
      then elem <~ index (elems (values q)) (len (values q) - 1) ;;
           Returns (elem, None)
      else Returns (VNil, None)
  end.

(** ** Reversal and slicing *)

(** [for i := c - 1; i >= 0; i--] of [Reverse]: [n] is [i + 1]. *)
Fixpoint Reverse_loop (src : list iface) (n : nat) (j : Z) (dst : list iface)
  : outcome (list iface) :=
  match n with
  | O => Returns dst
  | S i =>
      v <~ index src (Z.of_nat i) ;;
      dst' <~ store dst j v ;;
      Reverse_loop src i (j + 1) dst'
  end.

Definition Reverse (q : queryable) : outcome queryable :=
  match err q with
  | Some e => Returns (set_err zeroQ e)
  | None =>
      let c := len (values q) in
      let j := 0 in
      let dst := make c in
      dst' <~ Reverse_loop (elems (values q)) (Z.to_nat c) j (elems dst) ;;
      Returns (set_values zeroQ (Some dst'))
  end.

(** The clamping of [n] shared by [Take] and [Skip]. *)
Definition clamp (q : queryable) (n : Z) : Z :=
  let n := if n <? 0 then 0 else n in
  if n >=? len (values q) then len (values q) else n.

Definition Take (q : queryable) (n : Z) : outcome queryable :=
  match err q with
  | Some e => Returns (set_err zeroQ e)
  | None =>
      s <~ slice_to (values q) (clamp q n) ;;
      Returns (set_values zeroQ s)
  end.

Definition Skip (q : queryable) (n : Z) : outcome queryable :=
  match err q with
  | Some e => Returns (set_err zeroQ e)
  | None =>
      s <~ slice_from (values q) (clamp q n) ;;
      Returns (set_values zeroQ s)
  end.

(** [for _, v := range q.values] of [findWhileTerminationIndex]. *)
Fixpoint findWhile_loop (f : predicate) (vs : list iface) (n : Z)
  : M (Z * option error) :=
  match vs with
  | [] => ret (n, None)
  | v :: vs' =>
      res <- call_predicate f v ;;
      match snd res with
      | Some e => ret (n, Some e)
      | None => if fst res then findWhile_loop f vs' (n + 1) else ret (n, None)
      end
  end.

Definition findWhileTerminationIndex (q : queryable) (f : option predicate)
  : M (Z * option error) :=
  match err q with
  | Some e => ret (0, Some e)
  | None =>
      match f with
      | None => ret (0, Some ErrNilFunc)
      | Some f => findWhile_loop f (elems (values q)) 0
      end
  end.

Definition TakeWhile (q : queryable) (f : option predicate) : M queryable :=
  res <- findWhileTerminationIndex q f ;;
  match snd res with
  | Some e => ret (set_err zeroQ e)
  | None => lift (Take q (fst res))
  end.

Definition SkipWhile (q : queryable) (f : option predicate) : M queryable :=
  res <- findWhileTerminationIndex q f ;;
  match snd res with
  | Some e => ret (set_err zeroQ e)
  | None => lift (Skip q (fst res))
  end.

(** ** Relational join *)

(** The memoised inner key: [innerKey, ok := innerKeyLookup[inner]] and, when
    absent, the call of the selector and the update of the table. *)
Definition inner_key (innerKeySelector : key_selector)
    (lookup : gomap iface) (inner : iface) : M (iface * gomap iface) :=
  match map_get lookup inner with
  | Some k => ret (k, lookup)
  | None =>
      k <- call_inner_key innerKeySelector inner ;;
      ret (k, map_set lookup inner k)
  end.

(** [for _, inner := range innerCollection] of [Join]. *)
Fixpoint Join_inner (innerKeySelector : key_selector)
    (resultSelector : join_selector) (outer outerKey : iface)
    (inners : list iface) (lookup : gomap iface) (r : queryable)
  : M (gomap iface * queryable) :=
  match inners with
  | [] => ret (lookup, r)
  | inner :: inners' =>
      kl <- inner_key innerKeySelector lookup inner ;;
      if go_eq (fst kl) outerKey
      then
        elem <- call_join_result resultSelector outer inner ;;
        Join_inner innerKeySelector resultSelector outer outerKey inners'
          (snd kl) (set_values r (append (values r) elem))
      else
        Join_inner innerKeySelector resultSelector outer outerKey inners'
          (snd kl) r
  end.

(** [for _, outer := range outerCollection] of [Join]. *)
Fixpoint Join_outer (outerKeySelector innerKeySelector : key_selector)
    (resultSelector : join_selector) (outers inners : list iface)
    (lookup : gomap iface) (r : queryable) : M queryable :=
  match outers with
  | [] => ret r
  | outer :: outers' =>
      outerKey <- call_outer_key outerKeySelector outer ;;
      st <- Join_inner innerKeySelector resultSelector outer outerKey inners
              lookup r ;;
      Join_outer outerKeySelector innerKeySelector resultSelector outers'
        inners (fst st) (snd st)
  end.

Definition Join (q : queryable) (innerCollection : slice)
    (outerKeySelector innerKeySelector : option key_selector)
    (resultSelector : option join_selector) : M queryable :=
  match err q with
  | Some e => ret (set_err zeroQ e)
  | None =>
      match innerCollection with
      | None => ret (set_err zeroQ ErrNilInput)
      | Some inners =>
          match outerKeySelector, innerKeySelector, resultSelector with
          | Some oks, Some iks, Some rs =>
              Join_outer oks iks rs (elems (values q)) inners [] zeroQ
          | _, _, _ => ret (set_err zeroQ ErrNilFunc)
          end
      end
  end.

(** [for _, inner := range innerCollection] of [GroupJoin];
    [results[outer]] reads the zero value (the nil slice) for a key that is
    not found. *)
Fixpoint GroupJoin_inner (innerKeySelector : key_selector)
    (outer outerKey : iface) (inners : list iface)
    (lookup : gomap iface) (results : gomap slice)
  : M (gomap iface * gomap slice) :=
  match inners with
  | [] => ret (lookup, results)
  | inner :: inners' =>
      kl <- inner_key innerKeySelector lookup inner ;;
      GroupJoin_inner innerKeySelector outer outerKey inners' (snd kl)
        (if go_eq (fst kl) outerKey
         then map_set results outer
                (append (default None (map_get results outer)) inner)
         else results)
  end.

(** [for _, outer := range outerCollection] of [GroupJoin]. *)
Fixpoint GroupJoin_outer (outerKeySelector innerKeySelector : key_selector)
    (outers inners : list iface) (lookup : gomap iface)
    (results : gomap slice) : M (gomap slice) :=
  match outers with
  | [] => ret results
  | outer :: outers' =>
      outerKey <- call_outer_key outerKeySelector outer ;;
      let bucket := make 0 in
      let results := map_set results outer bucket in
      st <- GroupJoin_inner innerKeySelector outer outerKey inners lookup
              results ;;
      GroupJoin_outer outerKeySelector innerKeySelector outers' inners
        (fst st) (snd st)
  end.

(** [i := 0; for k, v := range results { r.values[i] = resultSelector(k, v);
    i++ }] *)
Fixpoint GroupJoin_emit (resultSelector : group_selector)
    (entries : gomap slice) (i : Z) (vals : list iface) : M (list iface) :=
  match entries with
  | [] => ret vals
  | (outer, inners) :: rest =>
      elem <- call_group_result resultSelector outer inners ;;
      vals' <- lift (store vals i elem) ;;
      GroupJoin_emit resultSelector rest (i + 1) vals'
  end.

Definition GroupJoin (o : map_order) (q : queryable) (innerCollection : slice)
    (outerKeySelector innerKeySelector : option key_selector)
    (resultSelector : option group_selector) : M queryable :=
  match err q with
  | Some e => ret (set_err zeroQ e)
  | None =>
      match innerCollection with
      | None => ret (set_err zeroQ ErrNilInput)
      | Some inners =>
          match outerKeySelector, innerKeySelector, resultSelector with
          | Some oks, Some iks, Some rs =>
              results <- GroupJoin_outer oks iks (elems (values q)) inners
                           [] [] ;;
              let vals := make (map_len results) in
              vals' <- GroupJoin_emit rs (visit o slice results) 0
                         (elems vals) ;;
              ret (set_values zeroQ (Some vals'))
          | _, _, _ => ret (set_err zeroQ ErrNilFunc)
          end
      end
  end.

(** ** Generation *)

(** [for i := 0; i < count; i++ { q.values[i] = start + i }] *)
Fixpoint Range_loop (start : Z) (n : nat) (i : Z) (vals : list iface)
  : outcome (list iface) :=
  match n with
  | O => Returns vals
  | S n' =>
      vals' <~ store vals i (VInt (int_add start i)) ;;
      Range_loop start n' (i + 1) vals'
  end.

Definition Range (start count : Z) : outcome queryable :=
  if count <? 0 then Returns (set_err zeroQ ErrNegativeParam)
  else
    vals <~ Range_loop start (Z.to_nat count) 0 (elems (make count)) ;;
    Returns (set_values zeroQ (Some vals)).

(** ** Numeric aggregation *)

(** The chain of type assertions of [sum_], in the order of the source. *)
Definition to_float64 (v : iface) : option float64 :=
  match v with
  | VInt f => Some (f64_of_Z f)
  | VUint f => Some (f64_of_Z f)
  | VFloat64 f => Some f
  | VInt32 f => Some (f64_of_Z f)
  | VInt64 f => Some (f64_of_Z f)
  | VFloat32 f => Some (f64_of_f32 f)
  | VInt8 f => Some (f64_of_Z f)
  | VInt16 f => Some (f64_of_Z f)
  | VUint64 f => Some (f64_of_Z f)
  | VUint32 f => Some (f64_of_Z f)
  | VUint16 f => Some (f64_of_Z f)
  | VUint8 f => Some (f64_of_Z f)
  | _ => None
  end.

(** [for i := 0; i < len(in); i++] of [sum_], [n] iterations being left. *)
Fixpoint sum_loop (in_ : list iface) (n : nat) (i : Z) (sum : float64)
  : outcome (float64 * option error) :=
  match n with
  | O => Returns (sum, None)
  | S n' =>
      v <~ index in_ i ;;
      match to_float64 v with
      | Some f => sum_loop in_ n' (i + 1) (f64_add sum f)
      | None => Returns (sum, Some ErrNan)
      end
  end.

Definition sum_ (in_ : slice) : outcome (float64 * option error) :=
  sum_loop (elems in_) (Z.to_nat (len in_)) 0 f64_zero.

Definition Sum (q : queryable) : outcome (float64 * option error) :=
  match err q with
  | Some e => Returns (f64_zero, Some e)
  | None => sum_ (values q)
  end.

Definition Average (q : queryable) : outcome (float64 * option error) :=
  match err q with
  | Some e => Returns (f64_zero, Some e)
  | None =>
      if len (values q) =? 0 then Returns (f64_zero, Some ErrEmptySequence)
      else
        res <~ sum_ (values q) ;;
        match snd res with
        | Some e => Returns (f64_zero, Some e)
        | None =>
            Returns (f64_div (fst res) (f64_of_Z (len (values q))), None)
        end
  end.

(** ** Counting and searching *)

(** [for _, i := range q.values] of [CountBy]. *)
Fixpoint CountBy_loop (f : predicate) (vs : list iface) (c : Z)
  : M (Z * option error) :=
  match vs with
  | [] => ret (c, None)
  | i :: vs' =>
      res <- call_predicate f i ;;
      match snd res with
      | Some e => ret (c, Some e)
      | None => CountBy_loop f vs' (if fst res then c + 1 else c)
      end
  end.

Definition CountBy (q : queryable) (f : option predicate)
  : M (Z * option error) :=
  match err q with
  | Some e => ret (0, Some e)
  | None =>
      match f with
      | None => ret (0, Some ErrNilFunc)
      | Some f => CountBy_loop f (elems (values q)) 0
      end
  end.


(** [for _, i := range q.values] of [AnyWith]; it returns at the first
    element the predicate accepts. *)
Fixpoint AnyWith_loop (f : predicate) (vs : list iface)
  : M (bool * option error) :=
  match vs with
  | [] => ret (false, None)
  | i :: vs' =>
      res <- call_predicate f i ;;
      match snd res with
      | Some e => ret (false, Some e)
      | None => if fst res then ret (true, None) else AnyWith_loop f vs'
      end
  end.

Definition AnyWith (q : queryable) (f : option predicate)
  : M (bool * option error) :=
  match err q with
  | Some e => ret (false, Some e)
  | None =>
      match f with
      | None => ret (false, Some ErrNilFunc)
      | Some f => AnyWith_loop f (elems (values q))
      end
  end.

Definition Single (q : queryable) (f : option predicate)
  : M (bool * option error) :=
  match err q with
  | Some e => ret (false, Some e)
  | None =>
      match f with
      | None => ret (false, Some ErrNilFunc)
      | Some _ =>
          res <- CountBy q f ;;
          match snd res with
          | Some e => ret (false, Some e)
          | None => ret (fst res =? 1, None)
          end
      end
  end.

(** The three results of [firstBy] and [lastBy]. *)
Record found_result : Type := mkFound {
  found_elem : iface;
  found : bool;
  found_err : option error
}.

(** [for _, i := range q.values] of [firstBy]. *)
Fixpoint firstBy_loop (f : predicate) (vs : list iface) : M found_result :=
  match vs with
  | [] => ret (mkFound VNil false None)
  | i :: vs' =>
      res <- call_predicate f i ;;
      match snd res with
      | Some e => ret (mkFound VNil false (Some e))
      | None =>
          if fst res then ret (mkFound i true None) else firstBy_loop f vs'
      end
  end.

Definition firstBy (q : queryable) (f : option predicate) : M found_result :=
  match err q with
  | Some e => ret (mkFound VNil false (Some e))
  | None =>
      match f with
      | None => ret (mkFound VNil false (Some ErrNilFunc))
      | Some f => firstBy_loop f (elems (values q))
      end
  end.

Definition FirstBy (q : queryable) (f : option predicate)
  : M (iface * option error) :=
  res <- firstBy q f ;;
  match found_err res with
  | None =>
      if negb (found res) then ret (found_elem res, Some ErrNoElement)
      else ret (found_elem res, None)
  | Some e => ret (found_elem res, Some e)
  end.

Definition FirstOrNilBy (q : queryable) (f : option predicate)
  : M (iface * option error) :=
  res <- firstBy q f ;;
  if negb (found res) then ret (VNil, found_err res)
  else ret (found_elem res, found_err res).

(** [for i := len(q.values) - 1; i >= 0; i--] of [lastBy]: [n] is [i + 1]. *)
Fixpoint lastBy_loop (f : predicate) (vals : list iface) (n : nat)
  : M found_result :=
  match n with
  | O => ret (mkFound VNil false None)
  | S i =>
      item <- lift (index vals (Z.of_nat i)) ;;
      res <- call_predicate f item ;;
      match snd res with
      | Some e => ret (mkFound VNil false (Some e))
      | None =>
          if fst res then ret (mkFound item true None)
          else lastBy_loop f vals i
      end
  end.

Definition lastBy (q : queryable) (f : option predicate) : M found_result :=
  match err q with
  | Some e => ret (mkFound VNil false (Some e))
  | None =>
      match f with
      | None => ret (mkFound VNil false (Some ErrNilFunc))
      | Some f =>
          lastBy_loop f (elems (values q)) (Z.to_nat (len (values q)))
      end
  end.

Definition LastBy (q : queryable) (f : option predicate)
  : M (iface * option error) :=
  res <- lastBy q f ;;
  match found_err res with
  | None =>
      if negb (found res) then ret (found_elem res, Some ErrNoElement)
      else ret (found_elem res, None)
  | Some e => ret (found_elem res, Some e)
  end.

Definition LastOrNilBy (q : queryable) (f : option predicate)
  : M (iface * option error) :=
  res <- lastBy q f ;;
  if negb (found res) then ret (VNil, found_err res)
  else ret (found_elem res, found_err res).

(** * Specification-side definitions

    The definitions below are not translations of the source: they word
    what the specification says, to be compared with the code above. *)


(** The dynamic types [Sum] and [Average] accept. *)
Definition is_numeric (v : iface) : bool :=
  match v with
  | VNil | VBool _ | VString _ => false
  | _ => true
  end.

(** The sum of a sequence of [float64], added from the left to [+0]. *)
Definition sum_floats (l : list float64) : float64 :=
  fold_left f64_add l f64_zero.


(** The invocations of the result selector of [GroupJoin] in a trace. *)
Definition group_calls (t : trace) : list (iface * slice) :=
  omap (fun c => match c with
                 | CallGroupResult outer inners => Some (outer, inners)
                 | _ => None
                 end) t.





(** The fault, if any, of an invocation of the comparer [f] recorded in a
    trace; the first fault of a trace; and a trace cut after its first
    faulting invocation. *)
Definition equivalence_fault (f : equivalence) (c : call) : option error :=
  match c with
  | CallEquivalence x y => snd (f x y)
  | _ => None
  end.

Fixpoint first_fault (f : equivalence) (t : trace) : option error :=
  match t with
  | [] => None
  | c :: t' =>
      match equivalence_fault f c with
      | Some e => Some e
      | None => first_fault f t'
      end
  end.

Fixpoint upto_fault (f : equivalence) (t : trace) : trace :=
  match t with
  | [] => []
  | c :: t' =>
      match equivalence_fault f c with
      | Some _ => [c]
      | None => c :: upto_fault f t'
      end
  end.

(** [DistinctBy] as the specification words it.  Going through the
    sequence in order, an element is excluded when the comparer confirms
    it equivalent to an element kept before it (the kept element being the
    left argument), and is kept otherwise; [seen] are the elements kept so
    far. *)
Fixpoint kept (f : equivalence) (seen l : list iface) : list iface :=
  match l with
  | [] => []
  | y :: l' =>
      if existsb (fun k => fst (f k y)) seen then kept f seen l'
      else y :: kept f (seen ++ [y]) l'
  end.

(** The comparisons this policy makes: each kept element against every
    later element, excluded or not. *)
Fixpoint comparisons (f : equivalence) (seen l : list iface) : trace :=
  match l with
  | [] => []
  | y :: l' =>
      if existsb (fun k => fst (f k y)) seen then comparisons f seen l'
      else map (CallEquivalence y) l' ++ comparisons f (seen ++ [y]) l'
  end.

(** A slice after the elements of [l] have been appended to it one by
    one: appending nothing leaves it as it is, nil included. *)
Definition append_all (s : slice) (l : list iface) : slice :=
  match l with
  | [] => s
  | _ :: _ => Some (elems s ++ l)
  end.

(** The longest prefix of a sequence whose elements a test accepts. *)
Fixpoint while_prefix (p : iface -> bool) (l : list iface) : list iface :=
  match l with
  | [] => []
  | x :: l' => if p x then x :: while_prefix p l' else []
  end.

(** A predicate or mapper that faults on no element of a sequence. *)
Definition never_faults {A} (f : iface -> A * option error)
    (l : list iface) : Prop :=
  Forall (fun x => snd (f x) = None) l.

(** A predicate that turns down, or accepts, every element of a sequence,
    without fault. *)
Definition rejects (f : predicate) (l : list iface) : Prop :=
  Forall (fun y => f y = (false, None)) l.
Definition accepts (f : predicate) (l : list iface) : Prop :=
  Forall (fun y => f y = (true, None)) l.




(** ** Sample data *)

(** [m * 2^e] as a [float64]. *)
Definition f64_scaled (m e : Z) : float64 :=
  binary_normalize f64_prec f64_emax m e false.

Definition two_and_a_half : float64 := f64_scaled 5 (-1).
Definition six_and_a_half : float64 := f64_scaled 13 (-1).
Definition NaN : float64 := S754_nan.

Definition sample_ints : queryable :=
  From (Some [VInt 3; VInt 1; VInt 2]).
Definition sample_mixed : queryable :=
  From (Some [VInt 1; VFloat64 two_and_a_half; VInt32 3]).
Definition sample_empty : queryable := From (Some []).
Definition sample_faulted : queryable := From None.

(** A predicate that turns down [1], and fails on [2]. *)
Definition sample_predicate : predicate :=
  fun v =>
    match v with
    | VInt 1 => (false, None)
    | VInt 2 => (false, Some (ErrOther "two"))
    | _ => (true, None)
    end.

(** A comparer that holds two [int]s equivalent when they agree modulo 2,
    and fails when its right argument is a string. *)
Definition sample_equivalence : equivalence :=
  fun x y =>
    match x, y with
    | VInt a, VInt b => (a mod 2 =? b mod 2, None)
    | _, VString _ => (false, Some (ErrOther "string"))
    | _, _ => (false, None)
    end.

(** Selectors for the join examples: a constant key, the sign of a
    floating-point zero as key, the parity of an [int] as key, and a result
    selector that counts its group. *)
Definition key_true : key_selector := fun _ => VBool true.
Definition key_parity : key_selector :=
  fun x =>
    match x with
    | VInt a => VInt (a mod 2)
    | _ => VNil
    end.
Definition count_group : group_selector := fun _ g => VInt (len g).


(** A predicate that accepts the odd [int]s and never fails, a mapper
    that doubles an [int], a join result selector that adds two [int]s. *)
Definition is_odd : predicate :=
  fun v =>
    match v with
    | VInt a => (a mod 2 =? 1, None)
    | _ => (false, None)
    end.
Definition double : mapper :=
  fun v =>
    match v with
    | VInt a => (VInt (2 * a), None)
    | _ => (v, None)
    end.
Definition add_pair : join_selector :=
  fun x y =>
    match x, y with
    | VInt a, VInt b => VInt (a + b)
    | _, _ => VNil
    end.

(** The order of insertion, as one admissible order of visit. *)
Definition insertion_order : map_order :=
  mkOrder (fun _ m => m) (fun _ m => Permutation_refl m).

(** * Properties *)

(** ** Checked indexing *)

Lemma index_lookup {A} (l : list A) (i : nat) (v : A) :
  l !! i = Some v -> index l (Z.of_nat i) = Returns v.
Proof.
  intros H. unfold index. pose proof (lookup_lt_Some _ _ _ H) as Hlt.
  replace ((0 <=? Z.of_nat i) && (Z.of_nat i <? Z.of_nat (length l)))
    with true.
  - now rewrite Nat2Z.id, H.
  - symmetry. apply andb_true_intro. split.
    + apply Z.leb_le. lia.
    + apply Z.ltb_lt. lia.
Qed.

Lemma index_middle {A} (pre : list A) (x : A) (post : list A) :
  index (pre ++ x :: post) (Z.of_nat (length pre)) = Returns x.
Proof. apply index_lookup. now rewrite list_lookup_middle. Qed.

Lemma store_middle {A} (pre : list A) (x v : A) (post : list A) :
  store (pre ++ x :: post) (Z.of_nat (length pre)) v
  = Returns (pre ++ v :: post).
Proof.
  unfold store.
  replace ((0 <=? Z.of_nat (length pre))
           && (Z.of_nat (length pre) <? Z.of_nat (length (pre ++ x :: post))))
    with true.
  - rewrite Nat2Z.id.
    replace (length pre) with (length pre + 0)%nat at 1 by lia.
    now rewrite insert_app_r.
  - symmetry. apply andb_true_intro. split.
    + apply Z.leb_le. lia.
    + apply Z.ltb_lt. rewrite length_app. simpl. lia.
Qed.

Lemma len_nonneg (s : slice) : 0 <= len s.
Proof. unfold len. lia. Qed.

Lemma elems_make (n : Z) : elems (make n) = replicate (Z.to_nat n) VNil.
Proof. reflexivity. Qed.

(** ** Machine integers *)

Lemma wrap_int_id (z : Z) : is_int z -> wrap_int z = z.
Proof.
  unfold is_int, int_min, int_max, wrap_int. intros H.
  rewrite Z.mod_small; lia.
Qed.

(** ** Take and Skip *)

Lemma clamp_spec (q : queryable) (n : Z) :
  clamp q n = Z.min (Z.max 0 n) (len (values q)).
Proof.
  unfold clamp. pose proof (len_nonneg (values q)).
  destruct (Z.ltb_spec n 0);
    match goal with |- context [?a >=? ?b] => destruct (Z.geb_spec a b) end;
    lia.
Qed.

Lemma clamp_bounds (q : queryable) (n : Z) :
  0 <= clamp q n <= len (values q).
Proof. rewrite clamp_spec. pose proof (len_nonneg (values q)). lia. Qed.

Lemma slice_to_in_range (s : slice) (n : Z) :
  0 <= n <= len s ->
  slice_to s n = Returns (option_map (take (Z.to_nat n)) s).
Proof.
  intros [H0 H1]. unfold slice_to.
  now rewrite (proj2 (Z.leb_le 0 n) H0), (proj2 (Z.leb_le n (len s)) H1).
Qed.

Lemma slice_from_in_range (s : slice) (n : Z) :
  0 <= n <= len s ->
  slice_from s n = Returns (option_map (drop (Z.to_nat n)) s).
Proof.
  intros [H0 H1]. unfold slice_from.
  now rewrite (proj2 (Z.leb_le 0 n) H0), (proj2 (Z.leb_le n (len s)) H1).
Qed.

Lemma elems_option_map (g : list iface -> list iface) (s : slice) :
  g [] = [] -> elems (option_map g s) = g (elems s).
Proof. intros Hg. destruct s; simpl; auto. Qed.

Lemma Take_returns (q : queryable) (n : Z) :
  err q = None ->
  Take q n
  = Returns (set_values zeroQ
               (option_map (take (Z.to_nat (clamp q n))) (values q))).
Proof.
  intros He. unfold Take. rewrite He.
  now rewrite slice_to_in_range by apply clamp_bounds.
Qed.

Lemma Skip_returns (q : queryable) (n : Z) :
  err q = None ->
  Skip q n
  = Returns (set_values zeroQ
               (option_map (drop (Z.to_nat (clamp q n))) (values q))).
Proof.
  intros He. unfold Skip. rewrite He.
  now rewrite slice_from_in_range by apply clamp_bounds.
Qed.

(** C5.  On an unfaulted pipeline [Take n] and [Skip n] both return without
    fault for every [n]; [Take n] holds the first [min (max 0 n) (len S)]
    elements, which for [n >= 0] is [min n (len S)] (and so is its [Count]);
    [Skip n] holds the remaining elements; the two payloads concatenated
    are [S] in order. *)
Theorem Take_Skip_partition (q : queryable) (n : Z) :
  err q = None ->
  exists t s : queryable,
    Take q n = Returns t /\ Skip q n = Returns s /\
    err t = None /\ err s = None /\
    len (values t) = Z.min (Z.max 0 n) (len (values q)) /\
    (0 <= n -> len (values t) = Z.min n (len (values q))) /\
    (0 <= n -> Count t = (Z.min n (len (values q)), None)) /\
    (0 <= n -> elems (values t) = take (Z.to_nat n) (elems (values q))) /\
    (0 <= n -> elems (values s) = drop (Z.to_nat n) (elems (values q))) /\
    elems (values t) ++ elems (values s) = elems (values q).
Proof.
  intros He.
  exists
    (set_values zeroQ (option_map (take (Z.to_nat (clamp q n))) (values q))),
    (set_values zeroQ (option_map (drop (Z.to_nat (clamp q n))) (values q))).
  pose proof (clamp_spec q n) as Hc.
  pose proof (len_nonneg (values q)) as Hl.
  assert (Hlen : len (option_map (take (Z.to_nat (clamp q n))) (values q))
                 = clamp q n).
  { unfold len at 1. rewrite elems_option_map by apply take_nil.
    rewrite length_take. unfold len in *. lia. }
  split; [now apply Take_returns |].
  split; [now apply Skip_returns |].
  split; [reflexivity |]. split; [reflexivity |].
  cbn [values set_values].
  split; [congruence |].
  split; [intros; rewrite Hlen; lia |].
  split; [intros; unfold Count; cbn [values err set_values zeroQ];
          rewrite Hlen; f_equal; lia |].
  rewrite !elems_option_map by (apply take_nil || apply drop_nil).
  split.
  { intros Hn. destruct (Z.le_gt_cases n (len (values q))).
    - do 2 f_equal. lia.
    - rewrite !take_ge; auto; unfold len in *; lia. }
  split.
  { intros Hn. destruct (Z.le_gt_cases n (len (values q))).
    - do 2 f_equal. lia.
    - rewrite !drop_ge; auto; unfold len in *; lia. }
  apply take_drop.
Qed.

Lemma Take_Skip_partition_witness :
  exists t s : queryable,
    Take sample_ints 2 = Returns t /\ Skip sample_ints 2 = Returns s /\
    err t = None /\ err s = None /\
    len (values t) = Z.min (Z.max 0 2) (len (values sample_ints)) /\
    (0 <= 2 -> len (values t) = Z.min 2 (len (values sample_ints))) /\
    (0 <= 2 -> Count t = (Z.min 2 (len (values sample_ints)), None)) /\
    (0 <= 2 ->
     elems (values t) = take (Z.to_nat 2) (elems (values sample_ints))) /\
    (0 <= 2 ->
     elems (values s) = drop (Z.to_nat 2) (elems (values sample_ints))) /\
    elems (values t) ++ elems (values s) = elems (values sample_ints).
Proof. apply (Take_Skip_partition sample_ints 2). reflexivity. Defined.

(** ** The trace monad *)

Lemma bind_ret {A B} (a : A) (k : A -> M B) : bind (ret a) k = k a.
Proof. unfold bind, ret. now destruct (k a). Qed.

Lemma bind_lift_returns {A B} (a : A) (k : A -> M B) :
  bind (lift (Returns a)) k = k a.
Proof. unfold bind, lift. now destruct (k a). Qed.

Lemma bind_returns {A B} (a : A) (t : trace) (k : A -> M B) :
  bind (Returns a, t) k = (fst (k a), t ++ snd (k a)).
Proof. unfold bind. now destruct (k a). Qed.

(** ** Go's [==] is a partial equivalence *)






(** ** Reverse *)

Lemma Reverse_loop_spec (src : list iface) (n : nat) :
  forall (pre rest : list iface),
    (n <= length src)%nat -> length rest = n ->
    Reverse_loop src n (Z.of_nat (length pre)) (pre ++ rest)
    = Returns (pre ++ rev (take n src)).
Proof.
  induction n as [| i IH]; intros pre rest Hn Hrest.
  - destruct rest; [| discriminate]. now rewrite take_0.
  - destruct rest as [| x rest]; [discriminate |].
    destruct (lookup_lt_is_Some_2 src i) as [v Hv]; [lia |].
    cbn [Reverse_loop obind].
    rewrite (index_lookup _ _ _ Hv). cbn [obind].
    rewrite store_middle. cbn [obind].
    replace (Z.of_nat (length pre) + 1) with (Z.of_nat (length (pre ++ [v])))
      by (rewrite length_app; simpl; lia).
    replace (pre ++ v :: rest) with ((pre ++ [v]) ++ rest)
      by now rewrite <- app_assoc.
    rewrite IH by (simpl in *; lia).
    rewrite (take_S_r _ _ _ Hv), rev_unit, <- app_assoc. reflexivity.
Qed.

Lemma Reverse_returns (q : queryable) :
  err q = None ->
  Reverse q = Returns (set_values zeroQ (Some (rev (elems (values q))))).
Proof.
  intros He. unfold Reverse. rewrite He, elems_make.
  unfold len. rewrite Nat2Z.id.
  pose proof (Reverse_loop_spec (elems (values q)) (length (elems (values q)))
                [] (replicate (length (elems (values q))) VNil)) as H.
  change (Z.of_nat (length (@nil iface))) with 0 in H.
  cbn [app] in H. rewrite H by (rewrite ?length_replicate; lia).
  cbn [obind app]. now rewrite firstn_all.
Qed.

(** C9.  [Reverse] on an unfaulted pipeline returns without fault, its
    payload is the source payload reversed, and reversing twice gives back
    the original element sequence. *)
Theorem Reverse_involution (q : queryable) :
  err q = None ->
  exists r rr : queryable,
    Reverse q = Returns r /\ err r = None /\
    values r = Some (rev (elems (values q))) /\
    Reverse r = Returns rr /\ err rr = None /\
    elems (values rr) = elems (values q).
Proof.
  intros He.
  exists (set_values zeroQ (Some (rev (elems (values q))))),
         (set_values zeroQ (Some (elems (values q)))).
  split; [now apply Reverse_returns |].
  split; [reflexivity |]. split; [reflexivity |].
  split; [| split; reflexivity].
  rewrite Reverse_returns by reflexivity.
  unfold elems at 1. simpl. now rewrite rev_involutive.
Qed.

Lemma Reverse_involution_witness :
  exists r rr : queryable,
    Reverse sample_ints = Returns r /\ err r = None /\
    values r = Some (rev (elems (values sample_ints))) /\
    Reverse r = Returns rr /\ err rr = None /\
    elems (values rr) = elems (values sample_ints).
Proof. apply (Reverse_involution sample_ints). reflexivity. Defined.

(** ** Range *)






Example Range_0_5 :
  Range 0 5
  = Returns (set_values zeroQ (Some [VInt 0; VInt 1; VInt 2; VInt 3; VInt 4])).
Proof. reflexivity. Qed.

(** ** Element access *)

(** What holds of C4: every access but [ElementAt] at the largest [int].
    [is_int (len ...)] says the payload is a slice Go can hold. *)
Lemma element_access (q : queryable) :
  err q = None -> is_int (len (values q)) ->
  (elems (values q) = [] ->
   First q = Returns (VNil, Some ErrNoElement) /\
   Last q = Returns (VNil, Some ErrNoElement) /\
   FirstOrNil q = Returns (VNil, None) /\
   LastOrNil q = Returns (VNil, None)) /\
  (forall x l, elems (values q) = x :: l ->
   First q = Returns (x, None) /\ FirstOrNil q = Returns (x, None)) /\
  (forall l x, elems (values q) = l ++ [x] ->
   Last q = Returns (x, None) /\ LastOrNil q = Returns (x, None)) /\
  (forall i, is_int i -> i < 0 ->
   ElementAt q i = Returns (VNil, Some ErrNegativeParam) /\
   ElementAtOrNil q i = Returns (VNil, Some ErrNegativeParam)) /\
  (forall i, 0 <= i < len (values q) ->
   exists v, ElementAt q i = Returns (v, None) /\
             ElementAtOrNil q i = Returns (v, None) /\
             elems (values q) !! Z.to_nat i = Some v) /\
  (forall i, is_int i -> len (values q) <= i ->
   ElementAtOrNil q i = Returns (VNil, None)) /\
  (forall i, len (values q) <= i < int_max ->
   ElementAt q i = Returns (VNil, Some ErrNoElement)).
Proof.
  intros He Hlen.
  unfold First, Last, FirstOrNil, LastOrNil, ElementAt, ElementAtOrNil.
  rewrite He. unfold len in *. unfold is_int, int_min, int_max in *.
  split; [| split; [| split; [| split; [| split; [| split]]]]].
  - intros H. rewrite H. repeat split; reflexivity.
  - intros x l H. rewrite H. split; reflexivity.
  - intros l x H. rewrite H, length_app. simpl length.
    destruct (Z.eqb_spec (Z.of_nat (length l + 1)) 0); [lia |].
    destruct (Z.gtb_spec (Z.of_nat (length l + 1)) 0); [| lia].
    replace (Z.of_nat (length l + 1) - 1) with (Z.of_nat (length l)) by lia.
    rewrite index_middle. split; reflexivity.
  - intros i Hi Hneg. destruct (Z.ltb_spec i 0); [| lia]. split; reflexivity.
  - intros i Hi.
    destruct (lookup_lt_is_Some_2 (elems (values q)) (Z.to_nat i)) as [v Hv];
      [lia |].
    exists v. destruct (Z.ltb_spec i 0); [lia |].
    unfold int_add. rewrite wrap_int_id
      by (unfold is_int, int_min, int_max; lia).
    destruct (Z.ltb_spec (Z.of_nat (length (elems (values q)))) (i + 1));
      [lia |].
    destruct (Z.gtb_spec (Z.of_nat (length (elems (values q)))) i); [| lia].
    rewrite <- (Z2Nat.id i) at 1 2 by lia.
    rewrite (index_lookup _ _ _ Hv). auto.
  - intros i Hi Hge. destruct (Z.ltb_spec i 0); [lia |].
    destruct (Z.gtb_spec (Z.of_nat (length (elems (values q)))) i);
      [lia | reflexivity].
  - intros i Hi. destruct (Z.ltb_spec i 0); [lia |].
    unfold int_add. rewrite wrap_int_id
      by (unfold is_int, int_min, int_max; lia).
    destruct (Z.ltb_spec (Z.of_nat (length (elems (values q)))) (i + 1));
      [reflexivity | lia].
Qed.

(** C4 fails in [ElementAt] at the largest [int]: [i + 1] wraps around to
    the smallest [int], the length test passes, and indexing panics.
    [ElementAtOrNil], which tests [len > i], returns nil there. *)
Theorem ElementAt_max_int_panics :
  err sample_ints = None /\
  len (values sample_ints) <= int_max /\
  ElementAt sample_ints int_max = Panics /\
  ElementAt sample_empty int_max = Panics /\
  ElementAtOrNil sample_ints int_max = Returns (VNil, None).
Proof. vm_compute. repeat split; discriminate. Qed.

(** ** All *)

Lemma All_loop_total (f : predicate) (vs : list iface) (all : bool) :
  Forall (fun x => snd (f x) = None) vs ->
  All_loop f vs all
  = (Returns (all && forallb (fun x => fst (f x)) vs, None),
     map CallPredicate vs).
Proof.
  revert all. induction vs as [| x vs IH]; intros all Hok.
  - simpl. now rewrite andb_true_r.
  - apply Forall_cons in Hok as [Hx Hvs].
    cbn [All_loop call_predicate bind]. rewrite Hx.
    rewrite (IH _ Hvs). simpl. now rewrite andb_assoc.
Qed.

Lemma All_loop_fault (f : predicate) (pre : list iface) (x : iface)
    (post : list iface) (e : error) (all : bool) :
  Forall (fun y => snd (f y) = None) pre -> snd (f x) = Some e ->
  All_loop f (pre ++ x :: post) all
  = (Returns (all && forallb (fun y => fst (f y)) pre, Some e),
     map CallPredicate (pre ++ [x])).
Proof.
  revert all. induction pre as [| y pre IH]; intros all Hok Hx.
  - cbn [app All_loop call_predicate bind]. rewrite Hx. simpl.
    now rewrite andb_true_r.
  - apply Forall_cons in Hok as [Hy Hpre].
    cbn [app All_loop call_predicate bind]. rewrite Hy.
    rewrite (IH _ Hpre Hx). simpl. now rewrite andb_assoc.
Qed.

(** C10.  On an unfaulted pipeline [All] invokes the predicate on every
    element, in order, whatever the earlier answers were; so when the
    predicate fails on some element, after any number of elements on which
    it returned [false], [All] reports that error (the calls end there). *)
Theorem All_no_short_circuit (q : queryable) (f : predicate) :
  err q = None ->
  (Forall (fun x => snd (f x) = None) (elems (values q)) ->
   All q (Some f)
   = (Returns (forallb (fun x => fst (f x)) (elems (values q)), None),
      map CallPredicate (elems (values q)))) /\
  (forall pre x post e,
     elems (values q) = pre ++ x :: post ->
     Forall (fun y => snd (f y) = None) pre -> snd (f x) = Some e ->
     All q (Some f)
     = (Returns (forallb (fun y => fst (f y)) pre, Some e),
        map CallPredicate (pre ++ [x]))).
Proof.
  intros He. unfold All. rewrite He. split.
  - intros Hok. now rewrite All_loop_total.
  - intros pre x post e Hv Hpre Hx. rewrite Hv.
    now rewrite (All_loop_fault f pre x post e true Hpre Hx).
Qed.

Lemma All_no_short_circuit_witness :
  err sample_ints = None /\
  fst (sample_predicate (VInt 1)) = false /\
  All sample_ints (Some sample_predicate)
  = (Returns (false, Some (ErrOther "two")),
     [CallPredicate (VInt 3); CallPredicate (VInt 1); CallPredicate (VInt 2)]).
Proof.
  split; [reflexivity |]. split; [reflexivity |].
  apply (proj2 (All_no_short_circuit sample_ints sample_predicate eq_refl)
           [VInt 3; VInt 1] (VInt 2) [] (ErrOther "two")).
  - reflexivity.
  - repeat constructor.
  - reflexivity.
Defined.

(** ** Sum and Average *)

Lemma to_float64_numeric (v : iface) :
  to_float64 v = None <-> is_numeric v = false.
Proof. destruct v; simpl; split; congruence. Qed.

Lemma sum_loop_spec (done todo : list iface) (sum : float64) :
  exists s : float64 * option error,
    sum_loop (done ++ todo) (length todo) (Z.of_nat (length done)) sum
    = Returns s /\
    (snd s = Some ErrNan <-> exists v, In v todo /\ is_numeric v = false) /\
    (snd s = None \/ snd s = Some ErrNan) /\
    (snd s = None -> fst s = fold_left f64_add (omap to_float64 todo) sum).
Proof.
  revert done sum. induction todo as [| v todo IH]; intros done sum.
  - exists (sum, None). simpl. repeat split; auto.
    + discriminate.
    + intros (v & [] & _).
  - cbn [length sum_loop]. rewrite index_middle. cbn [obind].
    destruct (to_float64 v) as [f |] eqn:Hv.
    + specialize (IH (done ++ [v]) (f64_add sum f)).
      rewrite <- app_assoc, length_app in IH. cbn [app length] in IH.
      replace (Z.of_nat (length done + 1)) with (Z.of_nat (length done) + 1)
        in IH by lia.
      destruct IH as (s & Hs & Hnan & Hcases & Hsum).
      exists s. split; [exact Hs |]. split; [| split; [exact Hcases |]].
      * rewrite Hnan. split.
        -- intros (w & Hw & Hnum). exists w. split; [now right | exact Hnum].
        -- intros (w & [<- | Hw] & Hnum).
           ++ apply to_float64_numeric in Hnum. congruence.
           ++ exists w. auto.
      * intros Hnone.
        change (omap to_float64 (v :: todo))
          with (match to_float64 v with
                | Some y => y :: omap to_float64 todo
                | None => omap to_float64 todo
                end).
        rewrite Hv. now apply Hsum.
    + exists (sum, Some ErrNan). split; [reflexivity |]. cbn [fst snd].
      split; [| split; [now right | discriminate]].
      split; [| reflexivity]. intros _. exists v. split; [now left |].
      now apply to_float64_numeric.
Qed.

Lemma sum__spec (in_ : slice) :
  exists s : float64 * option error,
    sum_ in_ = Returns s /\
    (snd s = Some ErrNan <->
     exists v, In v (elems in_) /\ is_numeric v = false) /\
    (snd s = None \/ snd s = Some ErrNan) /\
    (snd s = None -> fst s = sum_floats (omap to_float64 (elems in_))).
Proof.
  unfold sum_, len. rewrite Nat2Z.id.
  exact (sum_loop_spec [] (elems in_) f64_zero).
Qed.

(** C8.  On an unfaulted pipeline [Sum] and [Average] return; [Sum] carries
    the non-numeric fault exactly when some element is not of a numeric
    kind, and otherwise no fault and the sum of the elements as [float64];
    [Average] carries the empty-sequence fault on an empty payload, the
    non-numeric fault exactly when the payload is non-empty with a
    non-numeric element, and otherwise the sum divided by the count. *)
Theorem Sum_Average_spec (q : queryable) :
  err q = None ->
  exists s a : float64 * option error,
    Sum q = Returns s /\ Average q = Returns a /\
    (snd s = Some ErrNan <->
     exists v, In v (elems (values q)) /\ is_numeric v = false) /\
    (snd s = None \/ snd s = Some ErrNan) /\
    (snd s = None ->
     fst s = sum_floats (omap to_float64 (elems (values q)))) /\
    (elems (values q) = [] -> a = (f64_zero, Some ErrEmptySequence)) /\
    (elems (values q) <> [] ->
     snd a = snd s /\
     (snd s = None ->
      fst a = f64_div (fst s) (f64_of_Z (len (values q))))) /\
    (snd a = Some ErrNan <->
     exists v, In v (elems (values q)) /\ is_numeric v = false).
Proof.
  intros He. unfold Sum, Average. rewrite He.
  destruct (sum__spec (values q)) as (s & Hs & Hnan & Hcases & Hsum).
  rewrite Hs. cbn [obind].
  exists s.
  destruct (Z.eqb_spec (len (values q)) 0) as [H0 | H0].
  - assert (Hnil : elems (values q) = []).
    { unfold len in H0.
      destruct (elems (values q)); [reflexivity | simpl in H0; lia]. }
    eexists. split; [reflexivity |]. split; [reflexivity |].
    repeat (split; [assumption |]).
    split; [reflexivity |].
    split; [intros Hne; now destruct Hne |].
    cbn [snd]. rewrite Hnil. split; [discriminate |].
    intros (v & [] & _).
  - assert (Hne : elems (values q) = [] -> False).
    { intros Hnil. unfold len in H0. rewrite Hnil in H0. simpl in H0. lia. }
    destruct (snd s) as [e |] eqn:Hsnd.
    + exists (f64_zero, Some e). split; [reflexivity |].
      split; [reflexivity |]. repeat (split; [assumption |]).
      split; [intros Hnil; now destruct (Hne Hnil) |].
      split; [intros _; split; [reflexivity | discriminate] |].
      exact Hnan.
    + eexists. split; [reflexivity |].
      split; [reflexivity |]. repeat (split; [assumption |]).
      split; [intros Hnil; now destruct (Hne Hnil) |].
      split; [intros _; split; reflexivity |].
      exact Hnan.
Qed.

Lemma Sum_Average_spec_witness :
  exists s a : float64 * option error,
    Sum sample_mixed = Returns s /\ Average sample_mixed = Returns a /\
    (snd s = Some ErrNan <->
     exists v, In v (elems (values sample_mixed)) /\ is_numeric v = false) /\
    (snd s = None \/ snd s = Some ErrNan) /\
    (snd s = None ->
     fst s = sum_floats (omap to_float64 (elems (values sample_mixed)))) /\
    (elems (values sample_mixed) = [] ->
     a = (f64_zero, Some ErrEmptySequence)) /\
    (elems (values sample_mixed) <> [] ->
     snd a = snd s /\
     (snd s = None ->
      fst a = f64_div (fst s) (f64_of_Z (len (values sample_mixed))))) /\
    (snd a = Some ErrNan <->
     exists v, In v (elems (values sample_mixed)) /\ is_numeric v = false).
Proof. apply (Sum_Average_spec sample_mixed). reflexivity. Defined.

(** The worked examples of the specification. *)
Example Sum_mixed : Sum sample_mixed = Returns (six_and_a_half, None).
Proof. vm_compute. reflexivity. Qed.

Example Average_mixed :
  Average sample_mixed
  = Returns (f64_div six_and_a_half (f64_of_Z 3), None).
Proof. vm_compute. reflexivity. Qed.

Example Sum_string :
  exists s, Sum (From (Some [VString "a"])) = Returns (s, Some ErrNan).
Proof. eexists. reflexivity. Qed.

(** ** Propagation of an incoming fault *)

(** What holds of C1: every stage-producing operation other than
    [DistinctBy] with a nil comparer hands an incoming fault on unchanged,
    with no payload and without invoking any callable, nil or not. *)
Lemma fault_propagates (o : map_order) (q : queryable) (e : error) :
  err q = Some e ->
  (forall f, Where q f = (Returns (set_err zeroQ e), [])) /\
  (forall f, Select q f = (Returns (set_err zeroQ e), [])) /\
  Distinct o q = (Returns (set_err zeroQ e), []) /\
  (forall f, DistinctBy o q (Some f) = (Returns (set_err zeroQ e), [])) /\
  (forall in_, Union o q in_ = Returns (set_err zeroQ e)) /\
  (forall in_, Intersect o q in_ = Returns (set_err zeroQ e)) /\
  (forall in_, Except o q in_ = Returns (set_err zeroQ e)) /\
  Reverse q = Returns (set_err zeroQ e) /\
  (forall n, Take q n = Returns (set_err zeroQ e)) /\
  (forall n, Skip q n = Returns (set_err zeroQ e)) /\
  (forall f, TakeWhile q f = (Returns (set_err zeroQ e), [])) /\
  (forall f, SkipWhile q f = (Returns (set_err zeroQ e), [])) /\
  (forall inner oks iks rs,
     Join q inner oks iks rs = (Returns (set_err zeroQ e), [])) /\
  (forall inner oks iks rs,
     GroupJoin o q inner oks iks rs = (Returns (set_err zeroQ e), [])).
Proof.
  intros He.
  unfold Where, Select, Distinct, DistinctBy, distinct, Union, Intersect,
    Except, Reverse, Take, Skip, TakeWhile, SkipWhile,
    findWhileTerminationIndex, Join, GroupJoin.
  rewrite He. repeat split; reflexivity.
Qed.

(** C1 fails in [DistinctBy]: it tests its comparer for nil before the
    incoming fault is looked at, so a nil comparer replaces the fault the
    pipeline carries by the nil-function fault.  [Where], like every other
    operation, hands the incoming fault on. *)
Theorem DistinctBy_nil_masks_fault (o : map_order) :
  err sample_faulted = Some ErrNilInput /\
  DistinctBy o sample_faulted None = (Returns (set_err zeroQ ErrNilFunc), []) /\
  Where sample_faulted None = (Returns (set_err zeroQ ErrNilInput), []).
Proof. repeat split; reflexivity. Qed.

(** ** DistinctBy *)

Lemma first_fault_app (f : equivalence) (t1 t2 : trace) :
  first_fault f (t1 ++ t2)
  = match first_fault f t1 with
    | Some e => Some e
    | None => first_fault f t2
    end.
Proof.
  induction t1 as [| c t1 IH]; simpl; auto.
  now destruct (equivalence_fault f c).
Qed.

Lemma upto_fault_app (f : equivalence) (t1 t2 : trace) :
  upto_fault f (t1 ++ t2)
  = match first_fault f t1 with
    | Some _ => upto_fault f t1
    | None => t1 ++ upto_fault f t2
    end.
Proof.
  induction t1 as [| c t1 IH]; simpl; auto.
  destruct (equivalence_fault f c); auto.
  rewrite IH. now destruct (first_fault f t1).
Qed.

Lemma distinct_inner_spec (f : equivalence) (vi : iface) (i : nat) :
  forall (vtodo vhead : list iface) (bhead btodo : list bool),
    vhead !! i = Some vi ->
    length bhead = length vhead -> length btodo = length vtodo ->
    distinct_inner f (vhead ++ vtodo) (Z.of_nat i) (length vtodo)
      (Z.of_nat (length vhead)) (bhead ++ btodo)
    = (Returns
         (match first_fault f (map (CallEquivalence vi) vtodo) with
          | Some e => inr e
          | None =>
              inl (bhead
                   ++ zip_with (fun b v => b || fst (f vi v)) btodo vtodo)
          end),
       upto_fault f (map (CallEquivalence vi) vtodo)).
Proof.
  induction vtodo as [| v vtodo IH]; intros vhead bhead btodo Hvi Hb Hlen.
  - destruct btodo; [| discriminate]. reflexivity.
  - destruct btodo as [| b btodo]; [discriminate |].
    cbn [length distinct_inner].
    rewrite (index_lookup (vhead ++ v :: vtodo) i vi)
      by now apply lookup_app_l_Some.
    rewrite bind_lift_returns, index_middle, bind_lift_returns.
    unfold call_equivalence. rewrite bind_returns.
    cbn [map first_fault upto_fault equivalence_fault].
    destruct (snd (f vi v)) as [e |] eqn:Hsnd; [reflexivity |].
    assert (Hstep :
      (if fst (f vi v) then lift (store (bhead ++ b :: btodo)
                                    (Z.of_nat (length vhead)) true)
       else ret (bhead ++ b :: btodo))
      = ret ((bhead ++ [b || fst (f vi v)]) ++ btodo)).
    { rewrite <- app_assoc. cbn [app].
      destruct (fst (f vi v)).
      - rewrite <- Hb, store_middle, orb_true_r. reflexivity.
      - now rewrite orb_false_r. }
    rewrite Hstep, bind_ret.
    replace (Z.of_nat (length vhead) + 1)
      with (Z.of_nat (length (vhead ++ [v])))
      by (rewrite length_app; simpl; lia).
    replace (vhead ++ v :: vtodo) with ((vhead ++ [v]) ++ vtodo)
      by now rewrite <- app_assoc.
    rewrite IH.
    + cbn [fst snd app zip_with].
      destruct (first_fault f (map (CallEquivalence vi) vtodo));
        [reflexivity |].
      now rewrite <- app_assoc.
    + now apply lookup_app_l_Some.
    + rewrite !length_app. simpl. lia.
    + simpl in Hlen. lia.
Qed.
Lemma upto_fault_none (f : equivalence) (t : trace) :
  first_fault f t = None -> upto_fault f t = t.
Proof.
  induction t as [| c t IH]; simpl; auto.
  destruct (equivalence_fault f c); [discriminate |].
  intros H. now rewrite IH.
Qed.

Lemma marks_step (f : equivalence) (seen : list iface) (v : iface)
    (l : list iface) :
  zip_with (fun b y => b || fst (f v y))
    (map (fun y => existsb (fun k => fst (f k y)) seen) l) l
  = map (fun y => existsb (fun k => fst (f k y)) (seen ++ [v])) l.
Proof.
  induction l as [| y l IH]; simpl; auto.
  rewrite IH, existsb_app. simpl. now rewrite orb_false_r.
Qed.

Lemma distinct_outer_spec (f : equivalence) :
  forall (vtodo vhead : list iface) (bhead : list bool)
         (seen res : list iface),
    length bhead = length vhead ->
    distinct_outer f (vhead ++ vtodo) (Z.of_nat (length (vhead ++ vtodo)))
      (length vtodo) (Z.of_nat (length vhead))
      (bhead ++ map (fun y => existsb (fun k => fst (f k y)) seen) vtodo)
      (Some res)
    = (Returns
         (match first_fault f (comparisons f seen vtodo) with
          | Some e => inr e
          | None => inl (Some (res ++ kept f seen vtodo))
          end),
       upto_fault f (comparisons f seen vtodo)).
Proof.
  induction vtodo as [| v vtodo IH]; intros vhead bhead seen res Hb.
  - simpl. now rewrite app_nil_r.
  - cbn [length distinct_outer map].
    rewrite <- Hb, index_middle, bind_lift_returns, Hb.
    cbn [comparisons kept].
    assert (Hnext : Z.of_nat (length vhead) + 1
                    = Z.of_nat (length (vhead ++ [v])))
      by (rewrite length_app; simpl; lia).
    assert (Hvals : vhead ++ v :: vtodo = (vhead ++ [v]) ++ vtodo)
      by now rewrite <- app_assoc.
    destruct (existsb (fun k => fst (f k v)) seen) eqn:Hseen.
    + rewrite Hnext, Hvals.
      replace (bhead ++ true
               :: map (fun y => existsb (fun k => fst (f k y)) seen) vtodo)
        with ((bhead ++ [true])
              ++ map (fun y => existsb (fun k => fst (f k y)) seen) vtodo)
        by now rewrite <- app_assoc.
      apply IH. rewrite !length_app. simpl. lia.
    + replace (Z.to_nat (Z.of_nat (length (vhead ++ v :: vtodo))
                         - (Z.of_nat (length vhead) + 1)))
        with (length vtodo) by (rewrite length_app; simpl; lia).
      rewrite Hnext, Hvals.
      replace (bhead ++ false
               :: map (fun y => existsb (fun k => fst (f k y)) seen) vtodo)
        with ((bhead ++ [false])
              ++ map (fun y => existsb (fun k => fst (f k y)) seen) vtodo)
        by now rewrite <- app_assoc.
      rewrite (distinct_inner_spec f v (length vhead) vtodo (vhead ++ [v])
                 (bhead ++ [false]));
        [| now rewrite lookup_app_r, Nat.sub_diag by lia
         | rewrite !length_app; simpl; lia
         | now rewrite length_map].
      rewrite bind_returns, first_fault_app, upto_fault_app.
      destruct (first_fault f (map (CallEquivalence v) vtodo)) as [e |] eqn:Hff.
      * cbn [fst snd ret]. now rewrite app_nil_r.
      * rewrite (index_lookup ((vhead ++ [v]) ++ vtodo) (length vhead) v)
          by (rewrite <- app_assoc; apply list_lookup_middle; reflexivity).
        rewrite bind_lift_returns, marks_step.
        unfold append. change (elems (Some res)) with res.
        rewrite (IH (vhead ++ [v]) (bhead ++ [false]) (seen ++ [v])
                   (res ++ [v])) by (rewrite !length_app; simpl; lia).
        cbn [fst snd]. rewrite (upto_fault_none _ _ Hff).
        destruct (first_fault f (comparisons f (seen ++ [v]) vtodo));
          [reflexivity |].
        now rewrite <- app_assoc.
Qed.

Lemma map_false_replicate (l : list iface) :
  map (fun _ : iface => false) l = replicate (length l) false.
Proof. induction l as [| x l IH]; simpl; congruence. Qed.

Lemma distinct_with (o : map_order) (q : queryable) (f : equivalence) :
  err q = None ->
  distinct o q (Some f)
  = (Returns
       (match first_fault f (comparisons f [] (elems (values q))) with
        | Some e => set_err zeroQ e
        | None => set_values zeroQ (Some (kept f [] (elems (values q))))
        end),
     upto_fault f (comparisons f [] (elems (values q)))).
Proof.
  intros He. unfold distinct. rewrite He.
  unfold len. rewrite Nat2Z.id.
  pose proof (distinct_outer_spec f (elems (values q)) [] [] [] [] eq_refl)
    as H.
  cbn [app length existsb] in H.
  rewrite map_false_replicate in H.
  change (Z.of_nat 0) with 0 in H.
  change (make 0) with (Some (@nil iface)).
  rewrite H, bind_returns.
  destruct (first_fault f (comparisons f [] (elems (values q))));
    cbn [fst snd ret]; now rewrite app_nil_r.
Qed.
Lemma kept_sublist (f : equivalence) (l : list iface) :
  forall seen, sublist (kept f seen l) l.
Proof.
  induction l as [| y l IH]; intros seen; simpl.
  - constructor.
  - destruct (existsb (fun k => fst (f k y)) seen).
    + apply sublist_cons, IH.
    + apply sublist_skip, IH.
Qed.

Lemma kept_distinct (f : equivalence) (l : list iface) :
  forall seen,
    Forall (fun b => existsb (fun k => fst (f k b)) seen = false)
      (kept f seen l) /\
    ForallOrdPairs (fun a b => fst (f a b) = false) (kept f seen l).
Proof.
  induction l as [| y l IH]; intros seen; simpl.
  - split; constructor.
  - destruct (existsb (fun k => fst (f k y)) seen) eqn:Hy; [apply IH |].
    destruct (IH (seen ++ [y])) as [Hseen Hpairs].
    assert (Hsplit :
      Forall (fun b => existsb (fun k => fst (f k b)) seen = false
                       /\ fst (f y b) = false) (kept f (seen ++ [y]) l)).
    { eapply Forall_impl; [exact Hseen |]. intros b Hb. cbv beta in Hb.
      rewrite existsb_app in Hb. simpl in Hb.
      rewrite orb_false_r in Hb. now apply orb_false_elim in Hb. }
    split.
    + constructor; [exact Hy |].
      eapply Forall_impl; [exact Hsplit |]. now intros b [Hb _].
    + constructor; [| exact Hpairs].
      eapply Forall_impl; [exact Hsplit |]. now intros b [_ Hb].
Qed.

Lemma kept_covers (f : equivalence) (l : list iface) :
  forall seen y,
    In y l ->
    In y (kept f seen l) \/
    exists k, (In k seen \/ In k (kept f seen l)) /\ fst (f k y) = true.
Proof.
  induction l as [| x l IH]; intros seen y Hy; [destruct Hy |].
  simpl. destruct (existsb (fun k => fst (f k x)) seen) eqn:Hx.
  - destruct Hy as [<- | Hy]; [| now apply IH].
    right. apply existsb_exists in Hx as (k & Hk & Hf). eauto.
  - destruct Hy as [<- | Hy]; [left; now left |].
    destruct (IH (seen ++ [x]) y Hy) as [Hin | (k & Hk & Hf)].
    + left. now right.
    + right. exists k. split; [| exact Hf].
      destruct Hk as [Hk | Hk]; [| right; now right].
      apply in_app_or in Hk as [Hk | [<- | []]]; [now left |].
      right. now left.
Qed.

(** C3.  On an unfaulted pipeline [DistinctBy] with a comparer compares
    each element not yet excluded with every later one, in order, up to the
    first invocation that faults.  If one faults, the result carries that
    fault and no payload.  Otherwise the payload is the kept elements in
    their order of first occurrence: an element is excluded exactly when
    the comparer confirms it equivalent to an earlier kept one. *)
Theorem DistinctBy_spec (o : map_order) (q : queryable) (f : equivalence) :
  err q = None ->
  exists r : queryable,
    DistinctBy o q (Some f)
    = (Returns r, upto_fault f (comparisons f [] (elems (values q)))) /\
    (forall e, first_fault f (comparisons f [] (elems (values q))) = Some e ->
               err r = Some e /\ values r = None) /\
    (first_fault f (comparisons f [] (elems (values q))) = None ->
     err r = None /\
     values r = Some (kept f [] (elems (values q))) /\
     snd (DistinctBy o q (Some f)) = comparisons f [] (elems (values q))) /\
    sublist (kept f [] (elems (values q))) (elems (values q)) /\
    ForallOrdPairs (fun a b => fst (f a b) = false)
      (kept f [] (elems (values q))) /\
    (forall y, In y (elems (values q)) ->
       In y (kept f [] (elems (values q))) \/
       exists k, In k (kept f [] (elems (values q))) /\ fst (f k y) = true).
Proof.
  intros He. unfold DistinctBy. rewrite (distinct_with o q f He).
  eexists. split; [reflexivity |].
  split; [| split; [| split; [| split]]].
  - intros e ->. split; reflexivity.
  - intros Hff. rewrite Hff. cbn [snd].
    split; [reflexivity |]. split; [reflexivity |].
    now apply upto_fault_none.
  - apply kept_sublist.
  - apply kept_distinct.
  - intros y Hy.
    destruct (kept_covers f _ [] y Hy) as [Hin | (k & [[] | Hk] & Hf)]; eauto.
Qed.

Lemma DistinctBy_spec_witness :
  exists r : queryable,
    DistinctBy insertion_order sample_ints (Some sample_equivalence)
    = (Returns r,
       upto_fault sample_equivalence
         (comparisons sample_equivalence [] (elems (values sample_ints)))) /\
    (forall e,
       first_fault sample_equivalence
         (comparisons sample_equivalence [] (elems (values sample_ints)))
       = Some e ->
       err r = Some e /\ values r = None) /\
    (first_fault sample_equivalence
       (comparisons sample_equivalence [] (elems (values sample_ints)))
     = None ->
     err r = None /\
     values r
     = Some (kept sample_equivalence [] (elems (values sample_ints))) /\
     snd (DistinctBy insertion_order sample_ints (Some sample_equivalence))
     = comparisons sample_equivalence [] (elems (values sample_ints))) /\
    sublist (kept sample_equivalence [] (elems (values sample_ints)))
      (elems (values sample_ints)) /\
    ForallOrdPairs (fun a b => fst (sample_equivalence a b) = false)
      (kept sample_equivalence [] (elems (values sample_ints))) /\
    (forall y, In y (elems (values sample_ints)) ->
       In y (kept sample_equivalence [] (elems (values sample_ints))) \/
       exists k,
         In k (kept sample_equivalence [] (elems (values sample_ints))) /\
         fst (sample_equivalence k y) = true).
Proof.
  apply (DistinctBy_spec insertion_order sample_ints sample_equivalence).
  reflexivity.
Defined.

(** [3] and [1] are both odd: [1], the later one, goes. *)
Example DistinctBy_parity :
  DistinctBy insertion_order sample_ints (Some sample_equivalence)
  = (Returns (set_values zeroQ (Some [VInt 3; VInt 2])),
     [CallEquivalence (VInt 3) (VInt 1); CallEquivalence (VInt 3) (VInt 2)]).
Proof. reflexivity. Qed.

Example DistinctBy_fault :
  DistinctBy insertion_order
    (From (Some [VInt 3; VString "a"; VInt 1])) (Some sample_equivalence)
  = (Returns (set_err zeroQ (ErrOther "string")),
     [CallEquivalence (VInt 3) (VString "a")]).
Proof. reflexivity. Qed.

(** ** Built-in maps *)














(** ** Membership and multiplicity under [==] *)











(** ** Except *)




Example Except_ints :
  Except insertion_order (From (Some [VInt 3; VInt 1; VInt 3; VInt 2]))
    (Some [VInt 1; VInt 9])
  = Returns (set_values zeroQ (Some [VInt 3; VInt 2])).
Proof. reflexivity. Qed.

(** A NaN equals no value, itself included: every NaN of the source is a
    value of its own, and none is taken away by a NaN of the other
    sequence. *)
Example Except_NaN :
  Except insertion_order (From (Some [VFloat64 NaN; VInt 1; VFloat64 NaN]))
    (Some [VFloat64 NaN; VInt 1])
  = Returns (set_values zeroQ (Some [VFloat64 NaN; VFloat64 NaN])).
Proof. reflexivity. Qed.

(** ** GroupJoin *)









Section GroupJoinLoops.
Variables (oks iks : key_selector) (inners : list iface).
Hypothesis iks_respects_eq : forall x y, go_eq x y = true -> iks x = iks y.







End GroupJoinLoops.







Example GroupJoin_NaN :
  GroupJoin insertion_order (From (Some [VFloat64 NaN])) (Some [VInt 1])
    (Some key_true) (Some key_true) (Some count_group)
  = (Returns (set_values zeroQ (Some [VInt 0; VInt 1])),
     [CallOuterKey (VFloat64 NaN); CallInnerKey (VInt 1);
      CallGroupResult (VFloat64 NaN) (Some []);
      CallGroupResult (VFloat64 NaN) (Some [VInt 1])]).
Proof. reflexivity. Qed.




(** Two odd outer elements and an even one; equal outer values share one
    group; with no key in common every group is empty. *)
Example GroupJoin_parity :
  fst (GroupJoin insertion_order sample_ints (Some [VInt 4; VInt 5; VInt 7])
         (Some key_parity) (Some key_parity) (Some count_group))
  = Returns (set_values zeroQ (Some [VInt 2; VInt 2; VInt 1])).
Proof. reflexivity. Qed.

Example GroupJoin_collapse :
  group_calls
    (snd (GroupJoin insertion_order (From (Some [VInt 3; VInt 3]))
            (Some [VInt 5; VInt 4]) (Some key_parity) (Some key_parity)
            (Some count_group)))
  = [(VInt 3, Some [VInt 5])].
Proof. reflexivity. Qed.

Example GroupJoin_no_overlap :
  group_calls
    (snd (GroupJoin insertion_order (From (Some [VInt 3; VInt 1; VInt 3]))
            (Some [VInt 4; VInt 6]) (Some key_parity) (Some key_parity)
            (Some count_group)))
  = [(VInt 3, Some []); (VInt 1, Some [])].
Proof. reflexivity. Qed.

(** * Further properties of the operations *)

(** ** Where and Select *)

Lemma append_all_append (s : slice) (i : iface) (l : list iface) :
  append_all (append s i) l = append_all s (i :: l).
Proof.
  unfold append. destruct l as [| y l]; cbn [append_all].
  - reflexivity.
  - change (elems (Some (elems s ++ [i]))) with (elems s ++ [i]).
    now rewrite <- app_assoc.
Qed.

Lemma elems_append_all_nil (l : list iface) : elems (append_all None l) = l.
Proof. now destruct l. Qed.

Lemma set_values_same (r : queryable) : set_values r (values r) = r.
Proof. now destruct r. Qed.

Lemma Where_loop_total (f : predicate) (vs : list iface) :
  forall r : queryable,
    never_faults f vs ->
    Where_loop f vs r
    = (Returns (set_values r
                  (append_all (values r)
                     (List.filter (fun x => fst (f x)) vs))),
       map CallPredicate vs).
Proof.
  induction vs as [| x vs IH]; intros r Hok.
  - cbn. now rewrite set_values_same.
  - apply Forall_cons in Hok as [Hx Hvs].
    cbn [Where_loop List.filter map]. unfold call_predicate.
    rewrite bind_returns, Hx, (IH _ Hvs). cbn [fst snd app].
    destruct (fst (f x)); [| reflexivity].
    cbn [values set_values]. now rewrite append_all_append.
Qed.

Lemma Where_loop_fault (f : predicate) (pre : list iface) (x : iface)
    (post : list iface) (e : error) :
  forall r : queryable,
    never_faults f pre -> snd (f x) = Some e ->
    Where_loop f (pre ++ x :: post) r
    = (Returns (set_err
                  (set_values r
                     (append_all (values r)
                        (List.filter (fun y => fst (f y)) pre))) e),
       map CallPredicate (pre ++ [x])).
Proof.
  induction pre as [| y pre IH]; intros r Hok Hx.
  - cbn [app Where_loop List.filter map]. unfold call_predicate.
    rewrite bind_returns, Hx. cbn. now rewrite set_values_same.
  - apply Forall_cons in Hok as [Hy Hpre].
    cbn [app Where_loop List.filter map]. unfold call_predicate.
    rewrite bind_returns, Hy, (IH _ Hpre Hx). cbn [fst snd app].
    destruct (fst (f y)); [| reflexivity].
    cbn [values set_values]. now rewrite append_all_append.
Qed.

(** On an unfaulted pipeline [Where] invokes the predicate on the elements
    in order.  If it faults on none, the payload holds the accepted
    elements in order (it is the nil slice when none is accepted).  If it
    faults on an element, no later element is examined and the result
    carries that fault together with the elements accepted until then. *)
Theorem Where_spec (q : queryable) (f : predicate) :
  err q = None ->
  (never_faults f (elems (values q)) ->
   exists r : queryable,
     Where q (Some f) = (Returns r, map CallPredicate (elems (values q))) /\
     err r = None /\
     values r
     = append_all None (List.filter (fun x => fst (f x)) (elems (values q))) /\
     elems (values r) = List.filter (fun x => fst (f x)) (elems (values q))) /\
  (forall pre x post e,
     elems (values q) = pre ++ x :: post ->
     never_faults f pre -> snd (f x) = Some e ->
     exists r : queryable,
       Where q (Some f) = (Returns r, map CallPredicate (pre ++ [x])) /\
       err r = Some e /\
       elems (values r) = List.filter (fun y => fst (f y)) pre).
Proof.
  intros He. unfold Where. rewrite He. split.
  - intros Hok. rewrite (Where_loop_total f _ zeroQ Hok).
    eexists. split; [reflexivity |]. cbn [err values set_values zeroQ].
    split; [reflexivity |]. split; [reflexivity |].
    apply elems_append_all_nil.
  - intros pre x post e Hv Hpre Hx.
    rewrite Hv, (Where_loop_fault f pre x post e zeroQ Hpre Hx).
    eexists. split; [reflexivity |]. cbn [err values set_values set_err zeroQ].
    split; [reflexivity |]. apply elems_append_all_nil.
Qed.

Lemma Where_spec_witness :
  (never_faults is_odd (elems (values sample_ints)) ->
   exists r : queryable,
     Where sample_ints (Some is_odd)
     = (Returns r, map CallPredicate (elems (values sample_ints))) /\
     err r = None /\
     values r
     = append_all None
         (List.filter (fun x => fst (is_odd x)) (elems (values sample_ints))) /\
     elems (values r)
     = List.filter (fun x => fst (is_odd x)) (elems (values sample_ints))) /\
  (forall pre x post e,
     elems (values sample_ints) = pre ++ x :: post ->
     never_faults is_odd pre -> snd (is_odd x) = Some e ->
     exists r : queryable,
       Where sample_ints (Some is_odd)
       = (Returns r, map CallPredicate (pre ++ [x])) /\
       err r = Some e /\
       elems (values r) = List.filter (fun y => fst (is_odd y)) pre).
Proof. apply (Where_spec sample_ints is_odd). reflexivity. Defined.

Example Where_keeps_partial :
  fst (Where sample_ints (Some sample_predicate))
  = Returns (mkQ (Some [VInt 3]) (Some (ErrOther "two")) None).
Proof. reflexivity. Qed.

Lemma Select_loop_total (f : mapper) (vs : list iface) :
  forall r : queryable,
    never_faults f vs ->
    Select_loop f vs r
    = (Returns (set_values r
                  (append_all (values r) (map (fun x => fst (f x)) vs))),
       map CallMapper vs).
Proof.
  induction vs as [| x vs IH]; intros r Hok.
  - cbn. now rewrite set_values_same.
  - apply Forall_cons in Hok as [Hx Hvs].
    cbn [Select_loop map]. unfold call_mapper.
    rewrite bind_returns, Hx, (IH _ Hvs). cbn [fst snd app].
    cbn [values set_values]. now rewrite append_all_append.
Qed.

Lemma Select_loop_fault (f : mapper) (pre : list iface) (x : iface)
    (post : list iface) (e : error) :
  forall r : queryable,
    never_faults f pre -> snd (f x) = Some e ->
    Select_loop f (pre ++ x :: post) r
    = (Returns (set_err
                  (set_values r
                     (append_all (values r) (map (fun y => fst (f y)) pre)))
                  e),
       map CallMapper (pre ++ [x])).
Proof.
  induction pre as [| y pre IH]; intros r Hok Hx.
  - cbn [app Select_loop map]. unfold call_mapper.
    rewrite bind_returns, Hx. cbn. now rewrite set_values_same.
  - apply Forall_cons in Hok as [Hy Hpre].
    cbn [app Select_loop map]. unfold call_mapper.
    rewrite bind_returns, Hy, (IH _ Hpre Hx). cbn [fst snd app].
    cbn [values set_values]. now rewrite append_all_append.
Qed.

(** On an unfaulted pipeline [Select] invokes the mapper on the elements in
    order.  If it faults on none, the payload holds the mapped values in
    order, one per element.  If it faults on an element, no later element
    is mapped and the result carries that fault together with the values
    mapped until then. *)
Theorem Select_spec (q : queryable) (f : mapper) :
  err q = None ->
  (never_faults f (elems (values q)) ->
   exists r : queryable,
     Select q (Some f) = (Returns r, map CallMapper (elems (values q))) /\
     err r = None /\
     elems (values r) = map (fun x => fst (f x)) (elems (values q)) /\
     len (values r) = len (values q)) /\
  (forall pre x post e,
     elems (values q) = pre ++ x :: post ->
     never_faults f pre -> snd (f x) = Some e ->
     exists r : queryable,
       Select q (Some f) = (Returns r, map CallMapper (pre ++ [x])) /\
       err r = Some e /\
       elems (values r) = map (fun y => fst (f y)) pre).
Proof.
  intros He. unfold Select. rewrite He. split.
  - intros Hok. rewrite (Select_loop_total f _ zeroQ Hok).
    eexists. split; [reflexivity |]. cbn [err values set_values zeroQ].
    split; [reflexivity |].
    assert (Hel : elems (append_all None
                           (map (fun x => fst (f x)) (elems (values q))))
                  = map (fun x => fst (f x)) (elems (values q)))
      by apply elems_append_all_nil.
    split; [exact Hel |]. unfold len. now rewrite Hel, length_map.
  - intros pre x post e Hv Hpre Hx.
    rewrite Hv, (Select_loop_fault f pre x post e zeroQ Hpre Hx).
    eexists. split; [reflexivity |]. cbn [err values set_values set_err zeroQ].
    split; [reflexivity |]. apply elems_append_all_nil.
Qed.

Lemma Select_spec_witness :
  (never_faults double (elems (values sample_ints)) ->
   exists r : queryable,
     Select sample_ints (Some double)
     = (Returns r, map CallMapper (elems (values sample_ints))) /\
     err r = None /\
     elems (values r)
     = map (fun x => fst (double x)) (elems (values sample_ints)) /\
     len (values r) = len (values sample_ints)) /\
  (forall pre x post e,
     elems (values sample_ints) = pre ++ x :: post ->
     never_faults double pre -> snd (double x) = Some e ->
     exists r : queryable,
       Select sample_ints (Some double)
       = (Returns r, map CallMapper (pre ++ [x])) /\
       err r = Some e /\
       elems (values r) = map (fun y => fst (double y)) pre).
Proof. apply (Select_spec sample_ints double). reflexivity. Defined.

(** ** Distinct, Union and Intersect *)




























(** ** TakeWhile and SkipWhile *)

Lemma while_prefix_take (p : iface -> bool) (l : list iface) :
  while_prefix p l = take (length (while_prefix p l)) l.
Proof.
  induction l as [| x l IH]; auto. cbn [while_prefix].
  destruct (p x); cbn [length take]; [now rewrite <- IH | reflexivity].
Qed.

Lemma while_prefix_accepted (p : iface -> bool) (l : list iface) :
  Forall (fun x => p x = true) (while_prefix p l).
Proof.
  induction l as [| x l IH]; cbn [while_prefix]; [constructor |].
  destruct (p x) eqn:E; now constructor.
Qed.

Lemma while_prefix_stops (p : iface -> bool) (l : list iface) (x : iface)
    (rest : list iface) :
  drop (length (while_prefix p l)) l = x :: rest -> p x = false.
Proof.
  induction l as [| y l IH]; cbn [while_prefix]; [discriminate |].
  destruct (p y) eqn:E; cbn [length drop]; [exact IH |].
  now intros [= <- _].
Qed.

Lemma findWhile_loop_total (f : predicate) (vs : list iface) :
  forall n : Z,
    never_faults f
      (take (S (length (while_prefix (fun x => fst (f x)) vs))) vs) ->
    findWhile_loop f vs n
    = (Returns
         (n + Z.of_nat (length (while_prefix (fun x => fst (f x)) vs)), None),
       map CallPredicate
         (take (S (length (while_prefix (fun x => fst (f x)) vs))) vs)).
Proof.
  induction vs as [| x vs IH]; intros n Hok.
  - cbn. now rewrite Z.add_0_r.
  - cbn [findWhile_loop while_prefix] in *. unfold call_predicate.
    rewrite bind_returns.
    destruct (fst (f x)) eqn:Hx; cbn [length take] in *.
    + apply Forall_cons in Hok as [Hfx Hok].
      rewrite Hfx, (IH _ Hok). cbn [fst snd app map]. do 3 f_equal. lia.
    + apply Forall_cons in Hok as [Hfx _]. rewrite Hfx, take_0. cbn.
      now rewrite Z.add_0_r.
Qed.

Lemma findWhile_loop_fault (f : predicate) (pre : list iface) (x : iface)
    (post : list iface) (e : error) :
  forall n : Z,
    accepts f pre -> snd (f x) = Some e ->
    findWhile_loop f (pre ++ x :: post) n
    = (Returns (n + Z.of_nat (length pre), Some e),
       map CallPredicate (pre ++ [x])).
Proof.
  induction pre as [| y pre IH]; intros n Hpre Hx.
  - cbn [app findWhile_loop]. unfold call_predicate.
    rewrite bind_returns, Hx. cbn. now rewrite Z.add_0_r.
  - apply Forall_cons in Hpre as [Hy Hpre].
    cbn [app findWhile_loop]. unfold call_predicate.
    rewrite bind_returns, Hy. cbn [fst snd].
    rewrite (IH _ Hpre Hx). cbn [fst snd app map length]. do 3 f_equal. lia.
Qed.

(** On an unfaulted pipeline [TakeWhile] and [SkipWhile] invoke the
    predicate on the elements in order up to the first one it turns down,
    and on no later element.  If it faults on none of these, [TakeWhile]
    holds the longest prefix of accepted elements and [SkipWhile] the rest,
    which starts with the element turned down.  If it faults on an
    element reached, both carry that fault and no payload. *)
Theorem TakeWhile_SkipWhile_spec (q : queryable) (f : predicate) :
  err q = None ->
  (never_faults f
     (take (S (length (while_prefix (fun x => fst (f x)) (elems (values q)))))
        (elems (values q))) ->
   exists (t s : queryable) (tr : trace),
     TakeWhile q (Some f) = (Returns t, tr) /\
     SkipWhile q (Some f) = (Returns s, tr) /\
     tr = map CallPredicate
            (take (S (length (while_prefix (fun x => fst (f x))
                                (elems (values q)))))
               (elems (values q))) /\
     err t = None /\ err s = None /\
     elems (values t) = while_prefix (fun x => fst (f x)) (elems (values q)) /\
     elems (values t) ++ elems (values s) = elems (values q) /\
     Forall (fun x => fst (f x) = true) (elems (values t)) /\
     (forall x rest, elems (values s) = x :: rest -> fst (f x) = false)) /\
  (forall pre x post e,
     elems (values q) = pre ++ x :: post ->
     accepts f pre -> snd (f x) = Some e ->
     TakeWhile q (Some f)
     = (Returns (set_err zeroQ e), map CallPredicate (pre ++ [x])) /\
     SkipWhile q (Some f)
     = (Returns (set_err zeroQ e), map CallPredicate (pre ++ [x]))).
Proof.
  intros He. unfold TakeWhile, SkipWhile, findWhileTerminationIndex.
  rewrite He. split.
  - intros Hok. rewrite (findWhile_loop_total f _ 0 Hok), !bind_returns.
    cbn [fst snd]. rewrite Z.add_0_l.
    set (p := fun x => fst (f x)).
    set (k := length (while_prefix p (elems (values q)))).
    assert (Hk : (k <= length (elems (values q)))%nat).
    { unfold k. rewrite (while_prefix_take p (elems (values q))) at 1.
      rewrite length_take. lia. }
    assert (Hclamp : Z.to_nat (clamp q (Z.of_nat k)) = k).
    { rewrite clamp_spec. unfold len. lia. }
    rewrite (Take_returns q _ He), (Skip_returns q _ He), Hclamp.
    eexists _, _, _. cbn [lift fst snd]. rewrite app_nil_r.
    split; [reflexivity |]. split; [reflexivity |]. split; [reflexivity |].
    cbn [err values set_values zeroQ].
    rewrite !elems_option_map by (apply take_nil || apply drop_nil).
    split; [reflexivity |]. split; [reflexivity |].
    split; [symmetry; apply while_prefix_take |].
    split; [apply take_drop |].
    split.
    + unfold k. rewrite <- (while_prefix_take p (elems (values q))).
      apply (while_prefix_accepted p).
    + intros x rest. apply (while_prefix_stops p).
  - intros pre x post e Hv Hpre Hx.
    rewrite Hv, (findWhile_loop_fault f pre x post e 0 Hpre Hx), !bind_returns.
    cbn [fst snd ret]. now rewrite app_nil_r.
Qed.

Lemma TakeWhile_SkipWhile_spec_witness :
  exists (t s : queryable) (tr : trace),
    TakeWhile sample_ints (Some is_odd) = (Returns t, tr) /\
    SkipWhile sample_ints (Some is_odd) = (Returns s, tr) /\
    tr = map CallPredicate
           (take (S (length (while_prefix (fun x => fst (is_odd x))
                               (elems (values sample_ints)))))
              (elems (values sample_ints))) /\
    err t = None /\ err s = None /\
    elems (values t)
    = while_prefix (fun x => fst (is_odd x)) (elems (values sample_ints)) /\
    elems (values t) ++ elems (values s) = elems (values sample_ints) /\
    Forall (fun x => fst (is_odd x) = true) (elems (values t)) /\
    (forall x rest, elems (values s) = x :: rest -> fst (is_odd x) = false).
Proof.
  apply (proj1 (TakeWhile_SkipWhile_spec sample_ints is_odd eq_refl)).
  repeat constructor.
Defined.

(** ** Counting and searching *)

Lemma CountBy_loop_total (f : predicate) (vs : list iface) :
  forall c : Z,
    never_faults f vs ->
    CountBy_loop f vs c
    = (Returns
         (c + Z.of_nat (length (List.filter (fun x => fst (f x)) vs)), None),
       map CallPredicate vs).
Proof.
  induction vs as [| x vs IH]; intros c Hok.
  - cbn. now rewrite Z.add_0_r.
  - apply Forall_cons in Hok as [Hx Hvs].
    cbn [CountBy_loop List.filter map]. unfold call_predicate.
    rewrite bind_returns, Hx, (IH _ Hvs). cbn [fst snd app].
    destruct (fst (f x)); cbn [length]; do 3 f_equal; lia.
Qed.

Lemma CountBy_loop_fault (f : predicate) (pre : list iface) (x : iface)
    (post : list iface) (e : error) :
  forall c : Z,
    never_faults f pre -> snd (f x) = Some e ->
    CountBy_loop f (pre ++ x :: post) c
    = (Returns
         (c + Z.of_nat (length (List.filter (fun y => fst (f y)) pre)),
          Some e),
       map CallPredicate (pre ++ [x])).
Proof.
  induction pre as [| y pre IH]; intros c Hok Hx.
  - cbn [app CountBy_loop]. unfold call_predicate.
    rewrite bind_returns, Hx. cbn. now rewrite Z.add_0_r.
  - apply Forall_cons in Hok as [Hy Hpre].
    cbn [app CountBy_loop List.filter map]. unfold call_predicate.
    rewrite bind_returns, Hy, (IH _ Hpre Hx). cbn [fst snd app].
    destruct (fst (f y)); cbn [length]; do 3 f_equal; lia.
Qed.

(** On an unfaulted pipeline [CountBy] invokes the predicate on every
    element, in order.  If it faults on none, the count is the number of
    accepted elements, which is also the [Count] of what [Where] keeps.
    If it faults on an element, the fault is returned together with the
    number of elements accepted until then. *)
Theorem CountBy_spec (q : queryable) (f : predicate) :
  err q = None ->
  (never_faults f (elems (values q)) ->
   CountBy q (Some f)
   = (Returns
        (Z.of_nat
           (length (List.filter (fun x => fst (f x)) (elems (values q)))),
         None),
      map CallPredicate (elems (values q))) /\
   exists r : queryable,
     fst (Where q (Some f)) = Returns r /\
     fst (CountBy q (Some f)) = Returns (Count r)) /\
  (forall pre x post e,
     elems (values q) = pre ++ x :: post ->
     never_faults f pre -> snd (f x) = Some e ->
     CountBy q (Some f)
     = (Returns
          (Z.of_nat (length (List.filter (fun y => fst (f y)) pre)), Some e),
        map CallPredicate (pre ++ [x]))).
Proof.
  intros He. unfold CountBy, Where. rewrite He. split.
  - intros Hok.
    rewrite (CountBy_loop_total f _ 0 Hok), (Where_loop_total f _ zeroQ Hok).
    rewrite Z.add_0_l. split; [reflexivity |].
    eexists. split; [reflexivity |]. cbn [fst]. unfold Count, len.
    cbn [values err set_values zeroQ]. now rewrite elems_append_all_nil.
  - intros pre x post e Hv Hpre Hx.
    now rewrite Hv, (CountBy_loop_fault f pre x post e 0 Hpre Hx), Z.add_0_l.
Qed.

Lemma CountBy_spec_witness :
  CountBy sample_ints (Some is_odd)
  = (Returns
       (Z.of_nat
          (length (List.filter (fun x => fst (is_odd x))
                     (elems (values sample_ints)))),
        None),
     map CallPredicate (elems (values sample_ints))) /\
  exists r : queryable,
    fst (Where sample_ints (Some is_odd)) = Returns r /\
    fst (CountBy sample_ints (Some is_odd)) = Returns (Count r).
Proof.
  apply (proj1 (CountBy_spec sample_ints is_odd eq_refl)).
  repeat constructor.
Defined.

(** [Single] reports whether exactly one element is accepted, having
    invoked the predicate on every element; a fault of the predicate is
    returned with [false]. *)
Theorem Single_spec (q : queryable) (f : predicate) :
  err q = None ->
  (never_faults f (elems (values q)) ->
   Single q (Some f)
   = (Returns
        (Z.of_nat
           (length (List.filter (fun x => fst (f x)) (elems (values q))))
         =? 1, None),
      map CallPredicate (elems (values q)))) /\
  (forall pre x post e,
     elems (values q) = pre ++ x :: post ->
     never_faults f pre -> snd (f x) = Some e ->
     Single q (Some f)
     = (Returns (false, Some e), map CallPredicate (pre ++ [x]))).
Proof.
  intros He. unfold Single, CountBy. rewrite He. split.
  - intros Hok. rewrite (CountBy_loop_total f _ 0 Hok), bind_returns.
    cbn [fst snd ret]. now rewrite app_nil_r, Z.add_0_l.
  - intros pre x post e Hv Hpre Hx.
    rewrite Hv, (CountBy_loop_fault f pre x post e 0 Hpre Hx), bind_returns.
    cbn [fst snd ret]. now rewrite app_nil_r.
Qed.

Lemma Single_spec_witness :
  Single sample_ints (Some is_odd)
  = (Returns
       (Z.of_nat
          (length (List.filter (fun x => fst (is_odd x))
                     (elems (values sample_ints))))
        =? 1, None),
     map CallPredicate (elems (values sample_ints))).
Proof.
  apply (proj1 (Single_spec sample_ints is_odd eq_refl)).
  repeat constructor.
Defined.

Lemma AnyWith_loop_found (f : predicate) (pre : list iface) (x : iface)
    (post : list iface) :
  rejects f pre -> f x = (true, None) ->
  AnyWith_loop f (pre ++ x :: post)
  = (Returns (true, None), map CallPredicate (pre ++ [x])).
Proof.
  induction pre as [| y pre IH]; intros Hpre Hx.
  - cbn [app AnyWith_loop]. unfold call_predicate.
    now rewrite bind_returns, Hx.
  - apply Forall_cons in Hpre as [Hy Hpre].
    cbn [app AnyWith_loop]. unfold call_predicate.
    now rewrite bind_returns, Hy, (IH Hpre Hx).
Qed.

Lemma AnyWith_loop_none (f : predicate) (vs : list iface) :
  rejects f vs ->
  AnyWith_loop f vs = (Returns (false, None), map CallPredicate vs).
Proof.
  induction vs as [| y vs IH]; intros Hvs; [reflexivity |].
  apply Forall_cons in Hvs as [Hy Hvs].
  cbn [AnyWith_loop]. unfold call_predicate.
  now rewrite bind_returns, Hy, (IH Hvs).
Qed.

Lemma AnyWith_loop_fault (f : predicate) (pre : list iface) (x : iface)
    (post : list iface) (e : error) :
  rejects f pre -> snd (f x) = Some e ->
  AnyWith_loop f (pre ++ x :: post)
  = (Returns (false, Some e), map CallPredicate (pre ++ [x])).
Proof.
  induction pre as [| y pre IH]; intros Hpre Hx.
  - cbn [app AnyWith_loop]. unfold call_predicate.
    now rewrite bind_returns, Hx.
  - apply Forall_cons in Hpre as [Hy Hpre].
    cbn [app AnyWith_loop]. unfold call_predicate.
    now rewrite bind_returns, Hy, (IH Hpre Hx).
Qed.

(** On an unfaulted pipeline [AnyWith] stops at the first element the
    predicate accepts: it answers [true] and never invokes the predicate
    on a later element, whatever it would do there.  It answers [false]
    when every element is turned down, and returns the fault of the
    predicate when it faults before accepting. *)
Theorem AnyWith_short_circuit (q : queryable) (f : predicate) :
  err q = None ->
  (forall pre x post,
     elems (values q) = pre ++ x :: post ->
     rejects f pre -> f x = (true, None) ->
     AnyWith q (Some f)
     = (Returns (true, None), map CallPredicate (pre ++ [x]))) /\
  (rejects f (elems (values q)) ->
   AnyWith q (Some f)
   = (Returns (false, None), map CallPredicate (elems (values q)))) /\
  (forall pre x post e,
     elems (values q) = pre ++ x :: post ->
     rejects f pre -> snd (f x) = Some e ->
     AnyWith q (Some f)
     = (Returns (false, Some e), map CallPredicate (pre ++ [x]))).
Proof.
  intros He. unfold AnyWith. rewrite He. repeat split.
  - intros pre x post Hv Hpre Hx. rewrite Hv. now apply AnyWith_loop_found.
  - apply AnyWith_loop_none.
  - intros pre x post e Hv Hpre Hx. rewrite Hv.
    now apply AnyWith_loop_fault.
Qed.

(** [sample_predicate] fails on [2], which comes after the accepted [3]:
    [AnyWith] never gets there, [All] does. *)
Lemma AnyWith_short_circuit_witness :
  AnyWith sample_ints (Some sample_predicate)
  = (Returns (true, None), map CallPredicate ([] ++ [VInt 3])) /\
  snd (fst (sample_predicate (VInt 2)), snd (sample_predicate (VInt 2)))
  = Some (ErrOther "two").
Proof.
  split; [| reflexivity].
  apply (proj1 (AnyWith_short_circuit sample_ints sample_predicate eq_refl)
           [] (VInt 3) [VInt 1; VInt 2]).
  - reflexivity.
  - constructor.
  - reflexivity.
Defined.

Lemma firstBy_loop_found (f : predicate) (pre : list iface) (x : iface)
    (post : list iface) :
  rejects f pre -> f x = (true, None) ->
  firstBy_loop f (pre ++ x :: post)
  = (Returns (mkFound x true None), map CallPredicate (pre ++ [x])).
Proof.
  induction pre as [| y pre IH]; intros Hpre Hx.
  - cbn [app firstBy_loop]. unfold call_predicate.
    now rewrite bind_returns, Hx.
  - apply Forall_cons in Hpre as [Hy Hpre].
    cbn [app firstBy_loop]. unfold call_predicate.
    now rewrite bind_returns, Hy, (IH Hpre Hx).
Qed.

Lemma firstBy_loop_none (f : predicate) (vs : list iface) :
  rejects f vs ->
  firstBy_loop f vs
  = (Returns (mkFound VNil false None), map CallPredicate vs).
Proof.
  induction vs as [| y vs IH]; intros Hvs; [reflexivity |].
  apply Forall_cons in Hvs as [Hy Hvs].
  cbn [firstBy_loop]. unfold call_predicate.
  now rewrite bind_returns, Hy, (IH Hvs).
Qed.

Lemma firstBy_loop_fault (f : predicate) (pre : list iface) (x : iface)
    (post : list iface) (e : error) :
  rejects f pre -> snd (f x) = Some e ->
  firstBy_loop f (pre ++ x :: post)
  = (Returns (mkFound VNil false (Some e)), map CallPredicate (pre ++ [x])).
Proof.
  induction pre as [| y pre IH]; intros Hpre Hx.
  - cbn [app firstBy_loop]. unfold call_predicate.
    now rewrite bind_returns, Hx.
  - apply Forall_cons in Hpre as [Hy Hpre].
    cbn [app firstBy_loop]. unfold call_predicate.
    now rewrite bind_returns, Hy, (IH Hpre Hx).
Qed.

(** On an unfaulted pipeline [FirstBy] and [FirstOrNilBy] return the first
    element the predicate accepts, without looking at any later element.
    When every element is turned down [FirstBy] returns the no-element
    fault and [FirstOrNilBy] returns nil without fault.  A fault of the
    predicate before any acceptance is returned by both, with nil. *)
Theorem FirstBy_spec (q : queryable) (f : predicate) :
  err q = None ->
  (forall pre x post,
     elems (values q) = pre ++ x :: post ->
     rejects f pre -> f x = (true, None) ->
     FirstBy q (Some f)
     = (Returns (x, None), map CallPredicate (pre ++ [x])) /\
     FirstOrNilBy q (Some f)
     = (Returns (x, None), map CallPredicate (pre ++ [x]))) /\
  (rejects f (elems (values q)) ->
   FirstBy q (Some f)
   = (Returns (VNil, Some ErrNoElement),
      map CallPredicate (elems (values q))) /\
   FirstOrNilBy q (Some f)
   = (Returns (VNil, None), map CallPredicate (elems (values q)))) /\
  (forall pre x post e,
     elems (values q) = pre ++ x :: post ->
     rejects f pre -> snd (f x) = Some e ->
     FirstBy q (Some f)
     = (Returns (VNil, Some e), map CallPredicate (pre ++ [x])) /\
     FirstOrNilBy q (Some f)
     = (Returns (VNil, Some e), map CallPredicate (pre ++ [x]))).
Proof.
  intros He. unfold FirstBy, FirstOrNilBy, firstBy. rewrite He.
  split; [| split].
  - intros pre x post Hv Hpre Hx.
    rewrite Hv, (firstBy_loop_found f pre x post Hpre Hx), !bind_returns.
    cbn [found found_err found_elem negb fst snd ret].
    now rewrite app_nil_r.
  - intros Hall.
    rewrite (firstBy_loop_none f _ Hall), !bind_returns.
    cbn [found found_err found_elem negb fst snd ret].
    now rewrite app_nil_r.
  - intros pre x post e Hv Hpre Hx.
    rewrite Hv, (firstBy_loop_fault f pre x post e Hpre Hx), !bind_returns.
    cbn [found found_err found_elem negb fst snd ret].
    now rewrite app_nil_r.
Qed.

Lemma FirstBy_spec_witness :
  FirstBy sample_ints (Some sample_predicate)
  = (Returns (VInt 3, None), map CallPredicate ([] ++ [VInt 3])) /\
  FirstOrNilBy sample_ints (Some sample_predicate)
  = (Returns (VInt 3, None), map CallPredicate ([] ++ [VInt 3])).
Proof.
  apply (proj1 (FirstBy_spec sample_ints sample_predicate eq_refl)
           [] (VInt 3) [VInt 1; VInt 2]).
  - reflexivity.
  - constructor.
  - reflexivity.
Defined.

(** The backward scan of [lastBy] is the forward scan of [firstBy] over
    the reversed elements. *)
Lemma lastBy_loop_rev (f : predicate) (vals : list iface) (n : nat) :
  (n <= length vals)%nat ->
  lastBy_loop f vals n = firstBy_loop f (rev (take n vals)).
Proof.
  induction n as [| i IH]; intros Hn.
  - now rewrite take_0.
  - destruct (lookup_lt_is_Some_2 vals i) as [v Hv]; [lia |].
    rewrite (take_S_r _ _ _ Hv), rev_unit.
    cbn [lastBy_loop firstBy_loop].
    rewrite (index_lookup _ _ _ Hv), bind_lift_returns.
    unfold call_predicate. rewrite !bind_returns.
    destruct (snd (f v)); [reflexivity |].
    destruct (fst (f v)); [reflexivity |].
    rewrite IH by lia. reflexivity.
Qed.

(** [LastBy] and [LastOrNilBy] are [FirstBy] and [FirstOrNilBy] on the
    reversed pipeline: the same answer after the same invocations, for every
    predicate argument, nil included, and every pipeline, faulted or not. *)
Theorem LastBy_Reverse (q : queryable) (f : option predicate) :
  exists r : queryable,
    Reverse q = Returns r /\
    LastBy q f = FirstBy r f /\
    LastOrNilBy q f = FirstOrNilBy r f.
Proof.
  destruct (err q) as [e |] eqn:He.
  - exists (set_err zeroQ e). unfold Reverse, LastBy, LastOrNilBy, lastBy,
      FirstBy, FirstOrNilBy, firstBy. rewrite He. repeat split.
  - exists (set_values zeroQ (Some (rev (elems (values q))))).
    split; [now apply Reverse_returns |].
    unfold LastBy, LastOrNilBy, lastBy, FirstBy, FirstOrNilBy, firstBy.
    rewrite He. cbn [err values set_values zeroQ].
    destruct f as [f |]; [| split; reflexivity].
    unfold len. rewrite Nat2Z.id, lastBy_loop_rev, firstn_all by lia.
    split; reflexivity.
Qed.

(** On an unfaulted pipeline [LastBy] returns the last element the
    predicate accepts, having invoked it on the later elements only, from
    the end backwards; when every element is turned down it returns the
    no-element fault and [LastOrNilBy] returns nil without fault. *)
Theorem LastBy_spec (q : queryable) (f : predicate) :
  err q = None ->
  (forall pre x post,
     elems (values q) = pre ++ x :: post ->
     rejects f post -> f x = (true, None) ->
     LastBy q (Some f)
     = (Returns (x, None), map CallPredicate (rev post ++ [x])) /\
     LastOrNilBy q (Some f)
     = (Returns (x, None), map CallPredicate (rev post ++ [x]))) /\
  (rejects f (elems (values q)) ->
   LastBy q (Some f)
   = (Returns (VNil, Some ErrNoElement),
      map CallPredicate (rev (elems (values q)))) /\
   LastOrNilBy q (Some f)
   = (Returns (VNil, None), map CallPredicate (rev (elems (values q))))).
Proof.
  intros He.
  unfold LastBy, LastOrNilBy, lastBy. rewrite He.
  unfold len. rewrite Nat2Z.id, lastBy_loop_rev, firstn_all by lia.
  split.
  - intros pre x post Hv Hpost Hx.
    rewrite Hv, rev_app_distr. cbn [rev]. rewrite <- app_assoc. cbn [app].
    rewrite (firstBy_loop_found f (rev post) x (rev pre)), !bind_returns.
    + cbn [found found_err found_elem negb fst snd ret].
      now rewrite app_nil_r.
    + apply Forall_forall. intros y Hy.
      apply list_elem_of_In, in_rev, list_elem_of_In in Hy.
      exact (proj1 (Forall_forall _ _) Hpost y Hy).
    + exact Hx.
  - intros Hall.
    rewrite (firstBy_loop_none f (rev (elems (values q)))), !bind_returns.
    + cbn [found found_err found_elem negb fst snd ret].
      now rewrite app_nil_r.
    + apply Forall_forall. intros y Hy.
      apply list_elem_of_In, in_rev, list_elem_of_In in Hy.
      exact (proj1 (Forall_forall _ _) Hall y Hy).
Qed.

Lemma LastBy_spec_witness :
  LastBy sample_ints (Some is_odd)
  = (Returns (VInt 1, None), map CallPredicate (rev [VInt 2] ++ [VInt 1])) /\
  LastOrNilBy sample_ints (Some is_odd)
  = (Returns (VInt 1, None), map CallPredicate (rev [VInt 2] ++ [VInt 1])).
Proof.
  apply (proj1 (LastBy_spec sample_ints is_odd eq_refl)
           [VInt 3] (VInt 1) [VInt 2]).
  - reflexivity.
  - repeat constructor.
  - reflexivity.
Defined.

(** ** Join *)



Section JoinLoops.
Variables (oks iks : key_selector) (rs : join_selector)
  (inners : list iface).
Hypothesis iks_respects_eq : forall x y, go_eq x y = true -> iks x = iks y.




End JoinLoops.




Example Join_parity :
  fst (Join sample_ints (Some [VInt 4; VInt 5; VInt 7]) (Some key_parity)
         (Some key_parity) (Some add_pair))
  = Returns (set_values zeroQ
               (Some [VInt 8; VInt 10; VInt 6; VInt 8; VInt 6])).
Proof. reflexivity. Qed.

(** ** Element access, slicing and reversal together *)

Lemma First_cases (q : queryable) :
  err q = None ->
  First q = Returns (match elems (values q) with
                     | [] => (VNil, Some ErrNoElement)
                     | x :: _ => (x, None)
                     end) /\
  FirstOrNil q = Returns (match elems (values q) with
                          | [] => (VNil, None)
                          | x :: _ => (x, None)
                          end).
Proof.
  intros He. unfold First, FirstOrNil, len. rewrite He.
  destruct (elems (values q)) as [| x l]; split; reflexivity.
Qed.

Lemma Last_cases (q : queryable) :
  err q = None ->
  Last q = Returns (match rev (elems (values q)) with
                    | [] => (VNil, Some ErrNoElement)
                    | x :: _ => (x, None)
                    end) /\
  LastOrNil q = Returns (match rev (elems (values q)) with
                         | [] => (VNil, None)
                         | x :: _ => (x, None)
                         end).
Proof.
  intros He. unfold Last, LastOrNil, len. rewrite He.
  destruct (elems (values q)) as [| y l] using rev_ind;
    [split; reflexivity |].
  rewrite rev_unit, length_app. cbn [length].
  destruct (Z.eqb_spec (Z.of_nat (length l + 1)) 0); [lia |].
  destruct (Z.gtb_spec (Z.of_nat (length l + 1)) 0); [| lia].
  replace (Z.of_nat (length l + 1) - 1) with (Z.of_nat (length l)) by lia.
  rewrite index_middle. split; reflexivity.
Qed.

(** Reversing an unfaulted pipeline exchanges its ends: [First] of the
    reversed pipeline is [Last] of the original and conversely, fault on an
    empty payload included, and likewise for the [OrNil] accessors. *)
Theorem First_Reverse_Last (q : queryable) :
  err q = None ->
  exists r : queryable,
    Reverse q = Returns r /\
    First r = Last q /\ Last r = First q /\
    FirstOrNil r = LastOrNil q /\ LastOrNil r = FirstOrNil q.
Proof.
  intros He. exists (set_values zeroQ (Some (rev (elems (values q))))).
  split; [now apply Reverse_returns |].
  destruct (First_cases q He) as [HF HFn].
  destruct (Last_cases q He) as [HL HLn].
  destruct (First_cases (set_values zeroQ (Some (rev (elems (values q)))))
              eq_refl) as [HF' HFn'].
  destruct (Last_cases (set_values zeroQ (Some (rev (elems (values q)))))
              eq_refl) as [HL' HLn'].
  rewrite HF, HFn, HL, HLn, HF', HFn', HL', HLn'.
  change (elems (values (set_values zeroQ (Some (rev (elems (values q)))))))
    with (rev (elems (values q))).
  rewrite rev_involutive. repeat split; reflexivity.
Qed.

Lemma First_Reverse_Last_witness :
  exists r : queryable,
    Reverse sample_ints = Returns r /\
    First r = Last sample_ints /\ Last r = First sample_ints /\
    FirstOrNil r = LastOrNil sample_ints /\
    LastOrNil r = FirstOrNil sample_ints.
Proof. apply (First_Reverse_Last sample_ints). reflexivity. Defined.

(** For an index from 0 up to, but not including, the largest [int],
    [ElementAt(i)] is [First] after [Skip(i)], and [ElementAtOrNil(i)] is
    [FirstOrNil] after [Skip(i)]: the same element, or the same outcome
    when the index is past the end. *)
Theorem ElementAt_Skip_First (q : queryable) (i : Z) :
  err q = None -> 0 <= i < int_max ->
  exists s : queryable,
    Skip q i = Returns s /\
    ElementAt q i = First s /\
    ElementAtOrNil q i = FirstOrNil s.
Proof.
  intros He Hi.
  exists
    (set_values zeroQ (option_map (drop (Z.to_nat (clamp q i))) (values q))).
  split; [now apply Skip_returns |].
  match goal with |- context [First ?s] =>
    destruct (First_cases s eq_refl) as [HF HFn]
  end.
  rewrite HF, HFn. cbn [values set_values zeroQ].
  rewrite elems_option_map by apply drop_nil.
  unfold ElementAt, ElementAtOrNil. rewrite He.
  destruct (Z.ltb_spec i 0); [lia |].
  unfold int_add. rewrite wrap_int_id
    by (unfold is_int, int_min, int_max in *; lia).
  rewrite clamp_spec. unfold len.
  set (l := elems (values q)).
  destruct (Z.ltb_spec (Z.of_nat (length l)) (i + 1)) as [Hout | Hin];
    destruct (Z.gtb_spec (Z.of_nat (length l)) i); try lia.
  - rewrite drop_ge by lia. split; reflexivity.
  - destruct (lookup_lt_is_Some_2 l (Z.to_nat i)) as [v Hv]; [lia |].
    replace (Z.to_nat (Z.min (Z.max 0 i) (Z.of_nat (length l))))
      with (Z.to_nat i) by lia.
    assert (Hidx : index l i = Returns v).
    { rewrite <- (Z2Nat.id i) by lia. now apply index_lookup. }
    rewrite Hidx. cbn [obind].
    rewrite (drop_S _ _ _ Hv). split; reflexivity.
Qed.

Lemma ElementAt_Skip_First_witness :
  exists s : queryable,
    Skip sample_ints 1 = Returns s /\
    ElementAt sample_ints 1 = First s /\
    ElementAtOrNil sample_ints 1 = FirstOrNil s.
Proof.
  apply (ElementAt_Skip_First sample_ints 1).
  - reflexivity.
  - unfold int_max. lia.
Defined.

(** Taking twice is taking the smaller number: [Take(m)] of [Take(n)] has
    the payload of [Take(min n m)], for all [n] and [m], negative or past
    the end included. *)
Theorem Take_Take (q : queryable) (n m : Z) :
  err q = None ->
  exists t tt u : queryable,
    Take q n = Returns t /\ Take t m = Returns tt /\
    Take q (Z.min n m) = Returns u /\
    err tt = None /\ elems (values tt) = elems (values u).
Proof.
  intros He. eexists _, _, _.
  split; [now apply Take_returns |].
  split; [now apply Take_returns |].
  split; [now apply Take_returns |].
  split; [reflexivity |].
  cbn [values set_values zeroQ].
  rewrite !elems_option_map by apply take_nil.
  rewrite take_take. f_equal.
  rewrite !clamp_spec. cbn [values set_values zeroQ].
  unfold len at 1. rewrite elems_option_map by apply take_nil.
  rewrite length_take. unfold len. lia.
Qed.

Lemma Take_Take_witness :
  exists t tt u : queryable,
    Take sample_ints 2 = Returns t /\ Take t 5 = Returns tt /\
    Take sample_ints (Z.min 2 5) = Returns u /\
    err tt = None /\ elems (values tt) = elems (values u).
Proof. apply (Take_Take sample_ints 2 5). reflexivity. Defined.

(** ** Sum at the first element that is not a number *)

Lemma sum_loop_stops (pre : list iface) (x : iface) (post : list iface) :
  forall (done : list iface) (sum : float64),
    Forall (fun v => is_numeric v = true) pre -> is_numeric x = false ->
    sum_loop (done ++ pre ++ x :: post) (length (pre ++ x :: post))
      (Z.of_nat (length done)) sum
    = Returns (fold_left f64_add (omap to_float64 pre) sum, Some ErrNan).
Proof.
  induction pre as [| v pre IH]; intros done sum Hpre Hx.
  - cbn [app length sum_loop]. rewrite index_middle. cbn [obind].
    now rewrite (proj2 (to_float64_numeric x) Hx).
  - apply Forall_cons in Hpre as [Hv Hpre].
    cbn [app length sum_loop]. rewrite index_middle. cbn [obind].
    destruct (to_float64 v) as [fv |] eqn:Hfv;
      [| apply to_float64_numeric in Hfv; congruence].
    specialize (IH (done ++ [v]) (f64_add sum fv) Hpre Hx).
    rewrite <- app_assoc in IH. cbn [app] in IH.
    replace (Z.of_nat (length (done ++ [v])))
      with (Z.of_nat (length done) + 1) in IH
      by (rewrite length_app; simpl; lia).
    rewrite IH.
    change (omap to_float64 (v :: pre))
      with (match to_float64 v with
            | Some y => y :: omap to_float64 pre
            | None => omap to_float64 pre
            end).
    now rewrite Hfv.
Qed.

(** On an unfaulted pipeline whose first element that is not a number
    comes after the numbers [pre], [Sum] returns the non-numeric fault
    together with the sum of [pre] (not zero), while [Average] returns it
    with zero. *)
Theorem Sum_stops_at_non_numeric (q : queryable) (pre : list iface)
    (x : iface) (post : list iface) :
  err q = None ->
  elems (values q) = pre ++ x :: post ->
  Forall (fun v => is_numeric v = true) pre -> is_numeric x = false ->
  Sum q = Returns (sum_floats (omap to_float64 pre), Some ErrNan) /\
  Average q = Returns (f64_zero, Some ErrNan).
Proof.
  intros He Hv Hpre Hx.
  assert (Hsum : sum_ (values q)
                 = Returns (sum_floats (omap to_float64 pre), Some ErrNan)).
  { unfold sum_, len. rewrite Nat2Z.id, Hv.
    exact (sum_loop_stops pre x post [] f64_zero Hpre Hx). }
  unfold Sum, Average. rewrite He, Hsum. split; [reflexivity |].
  unfold len. rewrite Hv, length_app. cbn [length].
  destruct (Z.eqb_spec (Z.of_nat (length pre + S (length post))) 0); [lia |].
  reflexivity.
Qed.

Lemma Sum_stops_at_non_numeric_witness :
  Sum (From (Some [VInt 1; VInt 2; VString "a"; VInt 4]))
  = Returns (sum_floats (omap to_float64 [VInt 1; VInt 2]), Some ErrNan) /\
  Average (From (Some [VInt 1; VInt 2; VString "a"; VInt 4]))
  = Returns (f64_zero, Some ErrNan).
Proof.
  apply (Sum_stops_at_non_numeric
           (From (Some [VInt 1; VInt 2; VString "a"; VInt 4]))
           [VInt 1; VInt 2] (VString "a") [VInt 4]).
  - reflexivity.
  - reflexivity.
  - repeat constructor.
  - reflexivity.
Defined.

(** ** All and AnyWith *)

Lemma AnyWith_loop_total (f : predicate) (vs : list iface) :
  never_faults f vs ->
  fst (AnyWith_loop f vs)
  = Returns (existsb (fun x => fst (f x)) vs, None).
Proof.
  induction vs as [| x vs IH]; intros Hok; [reflexivity |].
  apply Forall_cons in Hok as [Hx Hvs].
  cbn [AnyWith_loop existsb]. unfold call_predicate.
  rewrite bind_returns, Hx. cbn [fst snd].
  destruct (fst (f x)); [reflexivity |]. now apply IH.
Qed.

(** For a predicate that faults on no element, [All] holds exactly when
    [AnyWith] fails for the opposite predicate; [All] is [true] and
    [AnyWith] is [false] on an empty payload. *)
Theorem All_AnyWith_dual (q : queryable) (f g : predicate) :
  err q = None ->
  never_faults f (elems (values q)) ->
  (forall x, g x = (negb (fst (f x)), None)) ->
  exists a b : bool,
    fst (All q (Some f)) = Returns (a, None) /\
    fst (AnyWith q (Some g)) = Returns (b, None) /\
    a = negb b /\
    (elems (values q) = [] -> a = true /\ b = false).
Proof.
  intros He Hok Hg. unfold All, AnyWith. rewrite He.
  rewrite (All_loop_total f _ true Hok), AnyWith_loop_total.
  - eexists _, _. split; [reflexivity |]. split; [reflexivity |]. split.
    + cbn [andb]. induction (elems (values q)) as [| x l IH]; auto.
      cbn [forallb existsb]. rewrite Hg. cbn [fst].
      apply Forall_cons in Hok as [_ Hl]. rewrite (IH Hl).
      now destruct (fst (f x)).
    + intros ->. split; reflexivity.
  - apply Forall_forall. intros x _. now rewrite Hg.
Qed.

Lemma All_AnyWith_dual_witness :
  exists a b : bool,
    fst (All sample_ints (Some is_odd)) = Returns (a, None) /\
    fst (AnyWith sample_ints
           (Some (fun x => (negb (fst (is_odd x)), None))))
    = Returns (b, None) /\
    a = negb b /\
    (elems (values sample_ints) = [] -> a = true /\ b = false).
Proof.
  apply (All_AnyWith_dual sample_ints is_odd
           (fun x => (negb (fst (is_odd x)), None))).
  - reflexivity.
  - repeat constructor.
  - reflexivity.
Defined.

(** ** Faults at the end of the pipeline and absent arguments *)




